(** * go-jeefo-mysql: the query builder, embedded and verified

    A shallow embedding of the package [mysql] (files [mysql.go], the file
    declaring [Error], and the file with the scalar conversion helpers).

    - Go strings are byte strings: Rocq's [string].
    - A Go [int] is a [Z]; the conversion [uint32(i)] is written out as
      reduction modulo [2^32].
    - An [interface{}] is a [value], one constructor per dynamic type that
      the package tells apart.
    - A [map[string]interface{}] that is only read by key is a [gmap], and
      [None] stands for the nil map.  A map that is iterated with [range] is
      given by the sequence of entries in the order [range] yields them: Go
      leaves that order unspecified, and every statement below holds for
      every order.
    - A panic is the [Panic] outcome of the [result] monad. *)

From Stdlib Require Import ZArith Ascii String List Lia.
From stdpp Require Import base option list gmap strings pretty.

Open Scope Z_scope.
Set Warnings "-register-all".

(** ** The packages [strings], [fmt] and [strconv], as far as they are used *)

(** [strings.Replace(s, old, new, -1)] for a one-byte [old]. *)
Fixpoint strings_Replace (s : string) (old : ascii) (new : string) : string :=
  match s with
  | EmptyString => EmptyString
  | String c s' =>
      if decide (c = old) then new +:+ strings_Replace s' old new
      else String c (strings_Replace s' old new)
  end.

(** [strings.Split(s, sep)] for a one-byte [sep]: the pieces between the
    separators; a string without separator (the empty one too) is one piece. *)
Fixpoint strings_Split (s : string) (sep : ascii) : list string :=
  match s with
  | EmptyString => [EmptyString]
  | String c s' =>
      if decide (c = sep) then EmptyString :: strings_Split s' sep
      else match strings_Split s' sep with
           | [] => [String c EmptyString]
           | part :: parts => String c part :: parts
           end
  end.

(** [strings.Join(elems, sep)]. *)
Fixpoint strings_Join (elems : list string) (sep : string) : string :=
  match elems with
  | [] => EmptyString
  | [e] => e
  | e :: es => e +:+ sep +:+ strings_Join es sep
  end.

(** The verb [%d] of [fmt.Sprintf] on an [int]: decimal digits, a leading
    [-] for a negative number. *)
Definition Sprintf_d (n : Z) : string := pretty n.

(** ** Values, errors and panics *)

(** The dynamic values of type [interface{}] that the package tells apart. *)
Inductive value : Type :=
| VNil                               (* the nil interface *)
| VBool (b : bool)                   (* bool *)
| VInt (n : Z)                       (* int *)
| VUint32 (n : Z)                    (* uint32, what ParseUint32 returns *)
| VString (s : string)               (* string *)
| VStrings (ss : list string)        (* []string *)
| VSlice (vs : list value)           (* []interface{}, elements boxed *)
| VMap (kvs : list (string * value)) (* a value of map kind *).

(** [reflect.Kind], the kinds that occur. *)
Inductive Kind := Invalid | Bool | Int | Uint32 | String_ | Slice | Map.

Definition Kind_of (v : value) : Kind :=
  match v with
  | VNil => Invalid
  | VBool _ => Bool
  | VInt _ => Int
  | VUint32 _ => Uint32
  | VString _ => String_
  | VStrings _ | VSlice _ => Slice
  | VMap _ => Map
  end.

(** [reflect.ValueOf(v).Index(i).Interface()] for [i] from [0] to [Len()-1]:
    the elements of a slice, each boxed in an interface. *)
Definition elements (v : value) : list value :=
  match v with
  | VStrings ss => VString <$> ss
  | VSlice vs => vs
  | _ => []
  end.

(** The driver's [*MySQLError]. *)
Record m_MySQLError := { Number : Z; SQLState : string; Message : string }.

(** A Go [error]: the driver's structured error, or any other error. *)
Inductive error :=
| DriverError (e : m_MySQLError)
| ErrSyntax                          (* strconv.ErrSyntax *)
| ErrRange                           (* strconv.ErrRange *)
| OtherError (text : string).

(** The package's [Error] struct. *)
Record Error := {
  Query : string;
  Values : list value;
  MySQLError : m_MySQLError
}.

(** What a panic carries. *)
Inductive panic_value :=
| PanicError (e : Error)             (* panic(&Error{...}) *)
| PanicErr (err : error)             (* panic(err) *)
| PanicRuntime (text : string).      (* a run-time panic of Go itself *)

(** A call returns, or panics. *)
Inductive result (A : Type) : Type :=
| Ok (a : A)
| Panic (p : panic_value).
Arguments Ok {A} a.
Arguments Panic {A} p.

#[global] Instance result_ret : MRet result := λ A a, Ok a.
#[global] Instance result_bind : MBind result := λ A B f m,
  match m with
  | Ok a => f a
  | Panic p => Panic p
  end.
#[global] Instance result_fmap : FMap result := λ A B f m,
  match m with
  | Ok a => Ok (f a)
  | Panic p => Panic p
  end.

(** ** Maps *)

(** [m[k]] on a map that may be nil: reading a nil map finds nothing. *)
Definition index (m : option (gmap string value)) (k : string) : option value :=
  m ≫= λ entries, entries !! k.

(** The type assertions [x.(string)], [x.(int)] and [x.([]string)] in their
    comma-ok form, on the result of a map read. *)
Definition as_string (x : option value) : option string :=
  match x with Some (VString s) => Some s | _ => None end.
Definition as_int (x : option value) : option Z :=
  match x with Some (VInt n) => Some n | _ => None end.
Definition as_strings (x : option value) : option (list string) :=
  match x with Some (VStrings ss) => Some ss | _ => None end.

(** [args[0]] when [len(args) > 0], else the nil map. *)
Definition first_arg (args : list (option (gmap string value)))
  : option (gmap string value) :=
  match args with
  | [] => None
  | options :: _ => options
  end.

(** ** mysql.go *)

(** The body of the loop of [EscapeId], and its [ignore_dot] branch. *)
Definition quote_part (part : string) : string :=
  "`" +:+ strings_Replace part "`" "``" +:+ "`".

Definition EscapeId (id : string) (ignore_dot : list bool) : string :=
  match ignore_dot with
  | true :: _ => quote_part id
  | _ => strings_Join (quote_part <$> strings_Split id ".") "."
  end.

Definition order_query (options : option (gmap string value)) : string :=
  match as_string (index options "order") with
  | Some val => " ORDER BY " +:+ val
  | None => ""
  end.

Definition limit_query (options : option (gmap string value))
    (has_offset : bool) : string :=
  match as_int (index options "limit") with
  | Some _limit =>
      if has_offset then
        let offset :=
          match as_int (index options "offset") with
          | Some value => value
          | None => 0
          end in
        " LIMIT " +:+ Sprintf_d offset +:+ ", " +:+ Sprintf_d _limit
      else " LIMIT " +:+ Sprintf_d _limit
  | None => ""
  end.

(** [prepare_columns] also overwrites the caller's [columns] slice with the
    escaped names; only the text it returns is modelled. *)
Definition prepare_columns (options : option (gmap string value)) : string :=
  match as_string (index options "column") with
  | Some field => EscapeId field []
  | None =>
      match as_strings (index options "columns") with
      | None => "*"
      | Some fields => strings_Join ((λ f, EscapeId f []) <$> fields) ", "
      end
  end.

(** The struct [_where]. *)
Record _where := { query : string; values : list value }.

(** [set_limit_option]: the options after the call.  Writing to a nil map
    is a run-time panic. *)
Definition set_limit_option (options : list (option (gmap string value)))
  : result (list (option (gmap string value))) :=
  match options with
  | [] => Ok [Some {["limit" := VInt 1]}]
  | [Some m] => Ok [Some (<["limit" := VInt 1]> m)]
  | [None] => Panic (PanicRuntime "assignment to entry in nil map")
  | _ => Ok options
  end.

(** One round of the loop of [prepare_set]; the state is [values],
    [columns] and the index [i]. *)
Definition set_step (st : list value * list string * nat)
    (entry : string * value) : list value * list string * nat :=
  let '(values, columns, i) := st in
  let '(key, value) := entry in
  match value with
  | VNil => (values, <[i := EscapeId key [] +:+ " = NULL"]> columns, S i)
  | _ => (values ++ [value], <[i := EscapeId key [] +:+ " = ?"]> columns, S i)
  end.

Definition prepare_set (data : list (string * value)) : string * list value :=
  let '(values, columns, _) :=
    fold_left set_step data ([], replicate (length data) "", 0%nat) in
  (strings_Join columns ", ", values).

(** One round of the loop of [Insert]. *)
Definition insert_step (st : list value * list string * list string)
    (entry : string * value) : list value * list string * list string :=
  let '(values, columns, placeholders) := st in
  let '(k, v) := entry in
  (values ++ [v], columns ++ [EscapeId k []], placeholders ++ ["?"]).

(** The statement [Insert] hands to [Exec]. *)
Definition Insert_query (table : string) (data : list (string * value))
  : string * list value :=
  let '(values, columns, placeholders) :=
    fold_left insert_step data ([], [], []) in
  let cols := strings_Join columns ", " in
  let vals := strings_Join placeholders ", " in
  ("INSERT INTO " +:+ EscapeId table [] +:+ "(" +:+ cols +:+ ") VALUES("
     +:+ vals +:+ ")", values).

(** The statement [InsertRow] hands to [Exec]. *)
Definition InsertRow_query (table : string) (data : list (string * value))
  : string * list value :=
  let '(set, values) := prepare_set data in
  ("INSERT INTO " +:+ table +:+ " SET " +:+ set +:+ ";", values).

(** [handle_error] never returns.  [values] is its variadic parameter. *)
Definition handle_error {A} (err : error) (query : string)
    (values : list value) : result A :=
  match err with
  | DriverError mysql_err =>
      Panic (PanicError
               {| Query := query; Values := values; MySQLError := mysql_err |})
  | _ => Panic (PanicErr err)
  end.

(** A cell of a result row as the driver delivers it. *)
Inductive cell := Null | Bytes (b : string).

(** [*sql.Rows]: the column names (or the error of [Columns()]) and the rows
    that [Next()] steps through. *)
Record sql_Rows := {
  Columns : list string + error;
  cells : list (list cell)
}.

(** [sql.Result]. *)
Record sql_Result := { LastInsertId : Z; RowsAffected : Z }.

(** [rows.Scan] into a [*sql.RawBytes]: NULL leaves the nil slice. *)
Definition scan_RawBytes (c : cell) : option string :=
  match c with
  | Null => None
  | Bytes b => Some b
  end.

(** The conversion [string(b)] of a byte slice; the nil slice has no bytes. *)
Definition string_of_bytes (b : option string) : string :=
  match b with
  | None => ""
  | Some s => s
  end.

(** [rows.Scan(valuePtrs...)], with the panic on its error: [Scan] wants as
    many destinations as the row has columns. *)
Definition Scan (ndest : nat) (row : list cell) : result (list (option string)) :=
  if decide (length row = ndest) then Ok (scan_RawBytes <$> row)
  else Panic (PanicErr (OtherError "sql: wrong number of destination arguments in Scan")).

(** The inner loop of [Select]: [result[col] = string(values[i])]. *)
Definition row_result (columns : list string) (values : list (option string))
  : gmap string value :=
  fold_left
    (λ (result : gmap string value) '(col, raw),
       <[col := VString (string_of_bytes raw)]> result)
    (zip columns values) ∅.

(** The outer loop of [Select], one round for each row. *)
Fixpoint Select_loop (columns : list string) (rows : list (list cell))
    (results : list (gmap string value)) : result (list (gmap string value)) :=
  match rows with
  | [] => Ok results
  | row :: rest =>
      values ← Scan (length columns) row;
      Select_loop columns rest (results ++ [row_result columns values])
  end.

Section Builder.

(** [json.Marshal] of the package encoding/json, with its error dropped. *)
Variable json_Marshal : value → string.

(** The connection: [db.Query] and [db.Exec]. *)
Variable db_Query : string → list value → sql_Rows + error.
Variable db_Exec : string → list value → sql_Result + error.

(** One round of the loop over the elements of a slice. *)
Definition slice_step (st : list value * list string) (x : value)
  : list value * list string :=
  let '(values, placeholders) := st in
  (values ++ [x], placeholders ++ ["?"]).

(** One round of the loop of [prepare_where]; the state is [conditions]
    and [values]. *)
Definition where_step (st : list string * list value)
    (entry : string * value) : list string * list value :=
  let '(conditions, values) := st in
  let '(key, value) := entry in
  let key := EscapeId key [] in
  match Kind_of value with
  | Invalid => (conditions ++ [key +:+ " IS NULL"], values)
  | Slice =>
      let '(values, placeholders) :=
        fold_left slice_step (elements value) (values, []) in
      let query := key +:+ "IN(" +:+ strings_Join placeholders ", " +:+ ")" in
      (conditions ++ [query], values)
  | Map =>
      (conditions ++ [key +:+ " = ?"], values ++ [VString (json_Marshal value)])
  | _ => (conditions ++ [key +:+ " = ?"], values ++ [value])
  end.

Definition prepare_where (where_ : option (list (string * value))) : _where :=
  match where_ with
  | None => {| query := ""; values := [] |}
  | Some entries =>
      let '(conditions, values) := fold_left where_step entries ([], []) in
      {| query := " WHERE " +:+ strings_Join conditions " AND ";
         values := values |}
  end.

(** The statement [Select] hands to [ExecQuery]. *)
Definition Select_query (table : string)
    (where_ : option (list (string * value)))
    (args : list (option (gmap string value))) : string * list value :=
  let options := first_arg args in
  let cols := prepare_columns options in
  let w := prepare_where where_ in
  let order := order_query options in
  let limit := limit_query options true in
  ("SELECT " +:+ cols +:+ " FROM " +:+ EscapeId table [] +:+ query w
     +:+ order +:+ limit +:+ ";", values w).

(** The statement [Update] hands to [Exec]. *)
Definition Update_query (table : string) (data : list (string * value))
    (where_ : option (list (string * value)))
    (args : list (option (gmap string value))) : string * list value :=
  let options := first_arg args in
  let '(set, values0) := prepare_set data in
  let w := prepare_where where_ in
  let values1 := values0 ++ values w in
  let order := order_query options in
  let limit := limit_query options false in
  ("UPDATE " +:+ EscapeId table [] +:+ " SET " +:+ set +:+ query w
     +:+ order +:+ limit +:+ ";", values1).

(** The statement [Delete] hands to [Exec]. *)
Definition Delete_query (table : string)
    (where_ : option (list (string * value)))
    (args : list (option (gmap string value))) : string * list value :=
  let options := first_arg args in
  let w := prepare_where where_ in
  let order :=
    match as_string (index options "order") with
    | Some val => " ORDER BY " +:+ val
    | None => ""
    end in
  let limit :=
    match as_int (index options "limit") with
    | Some val => " LIMIT " +:+ Sprintf_d val
    | None => ""
    end in
  ("DELETE FROM " +:+ table +:+ query w +:+ order +:+ limit +:+ ";", values w).

(** [ExecQuery] and [Exec], without the logging under [Debug].  Both call
    [handle_error(err, query, values)]: the slice [values] is passed as the
    one variadic argument, so that [handle_error] receives a slice of length
    one that holds it. *)
Definition ExecQuery (query : string) (values : list value) : result sql_Rows :=
  match db_Query query values with
  | inl rows => Ok rows
  | inr err => handle_error err query [VSlice values]
  end.

Definition Exec (query : string) (values : list value) : result sql_Result :=
  match db_Exec query values with
  | inl res => Ok res
  | inr err => handle_error err query [VSlice values]
  end.

Definition Select (table : string) (where_ : option (list (string * value)))
    (args : list (option (gmap string value)))
  : result (list (gmap string value)) :=
  let '(query, values) := Select_query table where_ args in
  rows ← ExecQuery query values;
  columns ← match Columns rows with
            | inl columns => Ok columns
            | inr err => Panic (PanicErr err)
            end;
  Select_loop columns (cells rows) [].

Definition First (table : string) (where_ : option (list (string * value)))
    (options : list (option (gmap string value)))
  : result (option (gmap string value)) :=
  options ← set_limit_option options;
  results ← Select table where_ options;
  match results with
  | [row] => Ok (Some row)
  | _ => Ok None
  end.

Definition Insert (table : string) (data : list (string * value))
  : result sql_Result :=
  let '(query, values) := Insert_query table data in Exec query values.

Definition InsertRow (table : string) (data : list (string * value))
  : result sql_Result :=
  let '(query, values) := InsertRow_query table data in Exec query values.

Definition Update (table : string) (data : list (string * value))
    (where_ : option (list (string * value)))
    (args : list (option (gmap string value))) : result sql_Result :=
  let '(query, values) := Update_query table data where_ args in
  Exec query values.

Definition UpdateFirst (table : string) (data : list (string * value))
    (where_ : option (list (string * value)))
    (options : list (option (gmap string value))) : result sql_Result :=
  options ← set_limit_option options;
  Update table data where_ options.

Definition Delete (table : string) (where_ : option (list (string * value)))
    (args : list (option (gmap string value))) : result sql_Result :=
  let '(query, values) := Delete_query table where_ args in
  Exec query values.

Definition DeleteFirst (table : string)
    (where_ : option (list (string * value)))
    (options : list (option (gmap string value))) : result sql_Result :=
  options ← set_limit_option options;
  Delete table where_ options.

End Builder.

(** ** The scalar conversion helpers *)

(** [strconv.IntSize] on the 64-bit platforms. *)
Definition intSize : Z := 64.

(** A decimal digit: [ch -= '0'; if ch > 9 { syntax error }]. *)
Definition digit_of (ch : ascii) : option Z :=
  let d := Z.of_N (N_of_ascii ch) - 48 in
  if decide (0 ≤ d ≤ 9) then Some d else None.

(** The digit loop [n = n*10 + int(ch)] of [Atoi] and of [ParseUint]: a
    byte that is no digit is a syntax error, a value that leaves the
    [uint64] is a range error, whichever comes first. *)
Fixpoint digits_value (n : Z) (s : string) : Z + error :=
  match s with
  | EmptyString => inl n
  | String ch s' =>
      match digit_of ch with
      | None => inr ErrSyntax
      | Some d =>
          let n1 := n * 10 + d in
          if decide (n1 < 2 ^ 64) then digits_value n1 s' else inr ErrRange
      end
  end.

(** [strconv.Atoi]: an optional sign, then one decimal digit or more; the
    value has to fit an [int].  The fast path for short strings and the
    path through [ParseInt] compute the same. *)
Definition Atoi (s : string) : Z + error :=
  match s with
  | EmptyString => inr ErrSyntax
  | String s0 rest =>
      let body :=
        if decide (s0 = "-"%char ∨ s0 = "+"%char) then rest else s in
      match body with
      | EmptyString => inr ErrSyntax
      | _ =>
          match digits_value 0 body with
          | inr err => inr err
          | inl un =>
              let n := if decide (s0 = "-"%char) then - un else un in
              if decide (- 2 ^ (intSize - 1) ≤ n < 2 ^ (intSize - 1))
              then inl n else inr ErrRange
          end
      end
  end.

Definition ParseUint32 (value : value) : result Z :=
  match value with
  | VString s =>
      match Atoi s with
      | inl i => Ok (i mod 2 ^ 32)
      | inr err => Panic (PanicErr err)
      end
  | _ => Panic (PanicRuntime "interface conversion: interface {} is not string")
  end.

(** ** Vocabulary of the statements

    What the properties below speak about besides the code: how the server
    reads a generated text. *)

(** Does [s] start with [p]? *)
Fixpoint HasPrefix (s p : string) : bool :=
  match p, s with
  | EmptyString, _ => true
  | String a p', String b s' => bool_decide (a = b) && HasPrefix s' p'
  | String _ _, EmptyString => false
  end.

(** Does [substr] occur in [s]? *)
Fixpoint strings_Contains (s substr : string) : bool :=
  HasPrefix s substr ||
  match s with
  | EmptyString => false
  | String _ s' => strings_Contains s' substr
  end.

(** A reader of qualified names, [`a`.`b`]: between backticks a doubled
    backtick stands for one backtick, a single one closes the name. *)
Inductive ident_state := Opening | Inside | AfterTick.

Fixpoint read_ids (st : ident_state) (cur : string) (s : string)
  : option (list string) :=
  match s with
  | EmptyString =>
      match st with
      | AfterTick => Some [cur]
      | _ => None
      end
  | String c s' =>
      match st with
      | Opening =>
          if decide (c = "`"%char) then read_ids Inside "" s' else None
      | Inside =>
          if decide (c = "`"%char) then read_ids AfterTick cur s'
          else read_ids Inside (cur +:+ String c "") s'
      | AfterTick =>
          if decide (c = "`"%char) then read_ids Inside (cur +:+ "`") s'
          else if decide (c = "."%char) then cons cur <$> read_ids Opening "" s'
          else None
      end
  end.

(** The characters of a statement, with its parameter markers found: a [?]
    is a marker ([None]) unless it stands inside a quoted identifier. *)
Fixpoint markers (quoted : bool) (q : string) : list (option ascii) :=
  match q with
  | EmptyString => []
  | String c q' =>
      if decide (c = "`"%char) then Some c :: markers (negb quoted) q'
      else if decide (c = "?"%char)
      then (if quoted then Some c else None) :: markers quoted q'
      else Some c :: markers quoted q'
  end.

(** Is the reader inside a quoted identifier after [q]? *)
Fixpoint quoted_after (quoted : bool) (q : string) : bool :=
  match q with
  | EmptyString => quoted
  | String c q' =>
      quoted_after (if decide (c = "`"%char) then negb quoted else quoted) q'
  end.

Fixpoint count_markers (ms : list (option ascii)) : nat :=
  match ms with
  | [] => 0
  | None :: ms' => S (count_markers ms')
  | Some _ :: ms' => count_markers ms'
  end.

(** The number of [?] placeholders of a statement. *)
Definition placeholders (q : string) : nat := count_markers (markers false q).

(** A statement with its parameters bound: literal text and arguments. *)
Inductive bound := Lit (c : ascii) | Arg (v : value).

(** Binding: the i-th marker takes the i-th value; it fails when the
    numbers of markers and values differ. *)
Fixpoint bind_values (ms : list (option ascii)) (vs : list value)
  : option (list bound) :=
  match ms with
  | [] =>
      match vs with
      | [] => Some []
      | _ :: _ => None
      end
  | Some c :: ms' => cons (Lit c) <$> bind_values ms' vs
  | None :: ms' =>
      match vs with
      | [] => None
      | v :: vs' => cons (Arg v) <$> bind_values ms' vs'
      end
  end.

Definition bind (q : string) (vs : list value) : option (list bound) :=
  bind_values (markers false q) vs.

Definition lits (s : string) : list bound := Lit <$> list_ascii_of_string s.

(** [v1, v2, ..., vn] *)
Fixpoint bound_list (vs : list value) : list bound :=
  match vs with
  | [] => []
  | [v] => [Arg v]
  | v :: vs' => Arg v :: lits ", " ++ bound_list vs'
  end.

Fixpoint bound_join (parts : list (list bound)) (sep : list bound) : list bound :=
  match parts with
  | [] => []
  | [p] => p
  | p :: ps => p ++ sep ++ bound_join ps sep
  end.

(** What each kind of condition means, following the specification: the
    column [IS NULL]; the column [IN] the elements, in their order; the
    column [=] the JSON text of a structured value; the column [=] the
    scalar. *)
Definition bound_condition (json_Marshal : value → string)
    (entry : string * value) : list bound :=
  let key := lits (EscapeId entry.1 []) in
  match entry.2 with
  | VNil => key ++ lits " IS NULL"
  | VStrings ss => key ++ lits "IN(" ++ bound_list (VString <$> ss) ++ lits ")"
  | VSlice vs => key ++ lits "IN(" ++ bound_list vs ++ lits ")"
  | VMap _ => key ++ lits " = " ++ [Arg (VString (json_Marshal entry.2))]
  | v => key ++ lits " = " ++ [Arg v]
  end.

Definition bound_where (json_Marshal : value → string)
    (entries : list (string * value)) : list bound :=
  lits " WHERE " ++
  bound_join (bound_condition json_Marshal <$> entries) (lits " AND ").



(** The escaped identifier after its opening backtick, written character
    by character: the shape the proofs about [EscapeId] follow. *)
Fixpoint escaped_tail (id : string) : string :=
  match id with
  | EmptyString => "`"
  | String c id' =>
      if decide (c = "."%char) then "`.`" +:+ escaped_tail id'
      else if decide (c = "`"%char) then "``" +:+ escaped_tail id'
      else String c (escaped_tail id')
  end.

(** What one round of the loop of [prepare_where] adds: the text of the
    condition, and the values bound by it. *)
Definition condition_text (entry : string * value) : string :=
  let key := EscapeId entry.1 [] in
  match Kind_of entry.2 with
  | Invalid => key +:+ " IS NULL"
  | Slice =>
      key +:+ "IN(" +:+
      strings_Join (replicate (length (elements entry.2)) "?") ", " +:+ ")"
  | _ => key +:+ " = ?"
  end.

Definition condition_values (json_Marshal : value → string)
    (entry : string * value) : list value :=
  match Kind_of entry.2 with
  | Invalid => []
  | Slice => elements entry.2
  | Map => [VString (json_Marshal entry.2)]
  | _ => [entry.2]
  end.

(** The text [q], read from outside any quoted identifier, takes exactly the
    values [vs], gives [b], and ends outside any quoted identifier. *)
Definition renders (q : string) (vs : list value) (b : list bound) : Prop :=
  bind_values (markers false q) vs = Some b ∧ quoted_after false q = false.


(** ** Further vocabulary of the statements *)

#[global] Instance Kind_eq_dec : EqDecision Kind.
Proof. solve_decision. Defined.

(** A text without a question mark and without a backtick. *)
Fixpoint plain (s : string) : bool :=
  match s with
  | EmptyString => true
  | String c s' =>
      bool_decide (c ≠ "`"%char) && bool_decide (c ≠ "?"%char) && plain s'
  end.

(** What one round of the loop of [prepare_set] adds: the text of the
    assignment, and the value bound by it. *)
Definition assignment_text (entry : string * value) : string :=
  match entry.2 with
  | VNil => EscapeId entry.1 [] +:+ " = NULL"
  | _ => EscapeId entry.1 [] +:+ " = ?"
  end.

Definition assignment_values (entry : string * value) : list value :=
  match entry.2 with
  | VNil => []
  | v => [v]
  end.

(** What an assignment means: the column is NULL, or the column is the
    value as it was given. *)
Definition bound_assignment (entry : string * value) : list bound :=
  match entry.2 with
  | VNil => lits (EscapeId entry.1 []) ++ lits " = NULL"
  | v => lits (EscapeId entry.1 []) ++ lits " = " ++ [Arg v]
  end.

Definition bound_set (data : list (string * value)) : list bound :=
  bound_join (bound_assignment <$> data) (lits ", ").

(** The bound WHERE clause of a condition map that may be nil. *)
Definition bound_clause (json_Marshal : value → string)
    (where_ : option (list (string * value))) : list bound :=
  match where_ with
  | None => []
  | Some entries => bound_where json_Marshal entries
  end.

(** [prepare_columns] writes the escaped names into the slice it reads from
    the options, which is the caller's: the options after the call. *)
Definition prepare_columns_store (options : option (gmap string value))
  : option (gmap string value) :=
  match as_string (index options "column") with
  | Some _ => options
  | None =>
      match as_strings (index options "columns") with
      | None => options
      | Some fields =>
          (λ m : gmap string value,
             <["columns" := VStrings ((λ f, EscapeId f []) <$> fields)]> m)
          <$> options
      end
  end.

(** [k] zeros. *)
Fixpoint zeros (k : nat) : string :=
  match k with
  | O => EmptyString
  | S k' => String "0" (zeros k')
  end.

(** ** The connection *)

(** The struct [Config]; [Port] is an [int16]. *)
Record Config := {
  Host : string;
  Port : Z;
  Socket : string;
  DBName : string;
  Username : string;
  Password : string
}.

Definition NewConfig : Config :=
  {| Host := "127.0.0.1"; Port := 3306; Socket := ""; DBName := "";
     Username := ""; Password := "" |}.

(** What [Init] hands to [sql.Open]. *)
Definition connect_string (cfg : Config) : string :=
  let target :=
    if decide (Socket cfg ≠ "") then "unix(" +:+ Socket cfg +:+ ")"
    else "tcp(" +:+ Host cfg +:+ ":" +:+ Sprintf_d (Port cfg) +:+ ")" in
  Username cfg +:+ ":" +:+ Password cfg +:+ "@" +:+ target +:+ "/" +:+
  DBName cfg +:+ "?charset=utf8".

Section Connection.

(** The handle [*sql.DB], [sql.Open] and [db.Ping]. *)
Variable DB : Type.
Variable sql_Open : string → string → DB + error.
Variable db_Ping : DB → option error.

(** [Init]: the variable [db] after the call, and the panic if there is
    one.  [db] is assigned before the error of [sql.Open] is looked at, and
    keeps the handle when [Ping] fails. *)
Definition Init (cfg : Config) : option DB * option panic_value :=
  match sql_Open "mysql" (connect_string cfg) with
  | inr err => (None, Some (PanicErr err))
  | inl handle =>
      match db_Ping handle with
      | Some err => (Some handle, Some (PanicErr err))
      | None => (Some handle, None)
      end
  end.

End Connection.

(** ** Decimal numerals

    What a text denotes, apart from the code that reads it. *)

(** The value of a run of decimal digits after the value [n] of the digits
    before it; [None] when a byte is no digit.  No bound is put on it. *)
Fixpoint horner (n : Z) (s : string) : option Z :=
  match s with
  | EmptyString => Some n
  | String ch s' => d ← digit_of ch; horner (n * 10 + d) s'
  end.

(** The integer a text denotes: a sign or none, then one digit or more. *)
Definition denotes (s : string) : option Z :=
  match s with
  | EmptyString => None
  | String c rest =>
      if decide (c = "-"%char) then
        match rest with
        | EmptyString => None
        | _ => Z.opp <$> horner 0 rest
        end
      else if decide (c = "+"%char) then
        match rest with
        | EmptyString => None
        | _ => horner 0 rest
        end
      else horner 0 s
  end.

(** A byte that opens no quote and no comment and is no question mark: a
    letter, a digit, an underscore, a dollar, a dot, a comma, a parenthesis
    or a space. *)
Definition inert_char (c : ascii) : bool :=
  let n := N_of_ascii c in
  ((48 <=? n) && (n <=? 57) || (65 <=? n) && (n <=? 90) ||
   (97 <=? n) && (n <=? 122) || (n =? 95) || (n =? 36) || (n =? 46) ||
   (n =? 44) || (n =? 40) || (n =? 41) || (n =? 32))%N.

(** A text of such bytes only. *)
Fixpoint inert (s : string) : bool :=
  match s with
  | EmptyString => true
  | String c s' => inert_char c && inert s'
  end.

(** * Properties *)

#[local] Arguments String.append !_ _ / : simpl nomatch.

(** ** Strings *)

Lemma append_assoc (a b c : string) : (a +:+ b) +:+ c = a +:+ (b +:+ c).
Proof. induction a as [|x a IH]; simpl; [done | f_equal; exact IH]. Qed.

Lemma append_nil_r (s : string) : s +:+ "" = s.
Proof. induction s as [|x s IH]; simpl; [done | by rewrite IH]. Qed.

Lemma append_snoc (s t : string) (c : ascii) :
  (s +:+ String c "") +:+ t = s +:+ String c t.
Proof. by rewrite append_assoc. Qed.

Lemma Split_nonempty s sep : strings_Split s sep ≠ [].
Proof.
  induction s as [|c s IH]; simpl; [done|].
  case_decide; [done|]. by destruct (strings_Split s sep).
Qed.

(** ** Identifier escaping *)

Lemma EscapeId_tail id : EscapeId id [] = String "`" (escaped_tail id).
Proof.
  unfold EscapeId. induction id as [|c id IH]; [done|].
  simpl. destruct (decide (c = "."%char)) as [->|Hdot].
  - simpl. destruct (strings_Split id ".") as [|p ps] eqn:E.
    { by destruct (Split_nonempty id "."). }
    simpl in *. by rewrite IH.
  - destruct (strings_Split id ".") as [|p ps] eqn:E.
    { by destruct (Split_nonempty id "."). }
    simpl in *. unfold quote_part in *. simpl.
    destruct (decide (c = "`"%char)) as [->|Htick]; simpl.
    + destruct ps; simpl in *; injection IH as IH; by rewrite IH.
    + destruct ps; simpl in *; injection IH as IH; by rewrite IH.
Qed.

Lemma read_ids_tail id : ∀ cur,
  read_ids Inside cur (escaped_tail id) =
  Some (match strings_Split id "." with
        | p :: ps => (cur +:+ p) :: ps
        | [] => []
        end).
Proof.
  induction id as [|c id IH]; intros cur; simpl.
  - by rewrite append_nil_r.
  - destruct (decide (c = "."%char)) as [->|Hdot]; simpl.
    + rewrite IH, append_nil_r. by destruct (strings_Split id ".").
    + destruct (decide (c = "`"%char)) as [->|Htick]; simpl.
      * rewrite IH. destruct (strings_Split id ".") as [|p ps] eqn:E; simpl.
        { by destruct (Split_nonempty id "."). }
        by rewrite append_snoc.
      * rewrite decide_False by done. rewrite IH.
        destruct (strings_Split id ".") as [|p ps] eqn:E; simpl.
        { by destruct (Split_nonempty id "."). }
        by rewrite append_snoc.
Qed.

Lemma read_ids_whole id : ∀ cur,
  read_ids Inside cur (strings_Replace id "`" "``" +:+ "`") = Some [cur +:+ id].
Proof.
  induction id as [|c id IH]; intros cur; simpl.
  - by rewrite append_nil_r.
  - destruct (decide (c = "`"%char)) as [->|Htick]; simpl.
    + by rewrite IH, append_snoc.
    + rewrite decide_False by done. by rewrite IH, append_snoc.
Qed.

Lemma length_escaped_tail id :
  (String.length id < String.length (escaped_tail id))%nat.
Proof.
  induction id as [|c id IH]; simpl; [lia|].
  repeat case_decide; simpl; lia.
Qed.

(** C4, as the code has it.  The escaped identifier reads back as the parts
    of the identifier between its dots, each a quoted name (as the whole
    identifier when [ignore_dot] is set): every backtick of the input is
    doubled, none closes a name.  Escaping is not idempotent: escaping an
    escaped identifier never gives it back. *)
Theorem EscapeId_reads_back (id : string) :
  read_ids Opening "" (EscapeId id []) = Some (strings_Split id ".") ∧
  read_ids Opening "" (EscapeId id [true]) = Some [id] ∧
  EscapeId (EscapeId id []) [] ≠ EscapeId id [].
Proof.
  split; [|split].
  - rewrite EscapeId_tail. simpl. rewrite read_ids_tail.
    destruct (strings_Split id ".") as [|p ps] eqn:E; [|done].
    by destruct (Split_nonempty id ".").
  - unfold EscapeId, quote_part. simpl. by rewrite read_ids_whole.
  - intros Heq. apply (f_equal String.length) in Heq.
    rewrite (EscapeId_tail (EscapeId id [])) in Heq.
    pose proof (length_escaped_tail (EscapeId id [])) as Hlt.
    remember (EscapeId id []) as e. simpl in Heq. lia.
Qed.

(** C4, as the claim has it: escaping [a] twice quotes it twice. *)
Lemma EscapeId_twice :
  EscapeId "a" [] = "`a`" ∧ EscapeId (EscapeId "a" []) [] = "```a```" ∧
  EscapeId (EscapeId "a" []) [] ≠ EscapeId "a" [].
Proof. vm_compute. repeat split; discriminate. Qed.

(** ** The WHERE clause *)

Section Where_clause.
Variable json_Marshal : value → string.

Lemma fold_slice_step xs : ∀ vs ps,
  fold_left slice_step xs (vs, ps) =
  (vs ++ xs, ps ++ replicate (length xs) "?").
Proof.
  induction xs as [|x xs IH]; intros vs ps; simpl.
  - by rewrite !app_nil_r.
  - rewrite IH. by rewrite <- !app_assoc.
Qed.

Lemma where_step_adds cs vs entry :
  where_step json_Marshal (cs, vs) entry =
  (cs ++ [condition_text entry], vs ++ condition_values json_Marshal entry).
Proof.
  destruct entry as [key v]. unfold where_step, condition_text, condition_values.
  simpl. destruct v; simpl; try done.
  - by rewrite app_nil_r.
  - by rewrite fold_slice_step.
  - by rewrite fold_slice_step.
Qed.

Lemma fold_where_step entries : ∀ cs vs,
  fold_left (where_step json_Marshal) entries (cs, vs) =
  (cs ++ (condition_text <$> entries),
   vs ++ (entries ≫= condition_values json_Marshal)).
Proof.
  induction entries as [|e es IH]; intros cs vs.
  - simpl. by rewrite !app_nil_r.
  - cbn [fold_left]. rewrite where_step_adds, IH, fmap_cons, bind_cons.
    by rewrite <- !app_assoc.
Qed.

Lemma markers_app s : ∀ b t,
  markers b (s +:+ t) = markers b s ++ markers (quoted_after b s) t.
Proof.
  induction s as [|c s IH]; intros b t; simpl; [done|].
  repeat case_decide; simpl; by rewrite IH.
Qed.

Lemma quoted_after_app s : ∀ b t,
  quoted_after b (s +:+ t) = quoted_after (quoted_after b s) t.
Proof. induction s as [|c s IH]; intros b t; simpl; [done|]. by rewrite IH. Qed.

Lemma bind_values_app ms1 : ∀ vs1 b1 ms2 vs2 b2,
  bind_values ms1 vs1 = Some b1 → bind_values ms2 vs2 = Some b2 →
  bind_values (ms1 ++ ms2) (vs1 ++ vs2) = Some (b1 ++ b2).
Proof.
  induction ms1 as [|[c|] ms1 IH]; intros vs1 b1 ms2 vs2 b2 H1 H2; simpl in *.
  - destruct vs1; by simplify_eq.
  - destruct (bind_values ms1 vs1) as [b|] eqn:E; simplify_eq/=.
    by rewrite (IH _ _ _ _ _ E H2).
  - destruct vs1 as [|v vs1]; [done|].
    destruct (bind_values ms1 vs1) as [b|] eqn:E; simplify_eq/=.
    by rewrite (IH _ _ _ _ _ E H2).
Qed.

Lemma bind_values_count ms : ∀ vs b,
  bind_values ms vs = Some b → count_markers ms = length vs.
Proof.
  induction ms as [|[c|] ms IH]; intros vs b H; simpl in *.
  - by destruct vs.
  - destruct (bind_values ms vs) eqn:E; simplify_eq/=. eauto.
  - destruct vs as [|v vs]; [done|].
    destruct (bind_values ms vs) eqn:E; simplify_eq/=. f_equal. eauto.
Qed.

Lemma renders_app q1 v1 b1 q2 v2 b2 :
  renders q1 v1 b1 → renders q2 v2 b2 →
  renders (q1 +:+ q2) (v1 ++ v2) (b1 ++ b2).
Proof.
  intros [H1 E1] [H2 E2]. split.
  - rewrite markers_app, E1. by apply bind_values_app.
  - by rewrite quoted_after_app, E1.
Qed.

Lemma lits_app s t : lits (s +:+ t) = lits s ++ lits t.
Proof.
  unfold lits. induction s as [|c s IH]; simpl; [done|].
  f_equal. exact IH.
Qed.

Lemma renders_tail id :
  bind_values (markers true (escaped_tail id)) [] = Some (lits (escaped_tail id))
  ∧ quoted_after true (escaped_tail id) = false.
Proof.
  induction id as [|c id [IH1 IH2]]; simpl; [done|].
  destruct (decide (c = "."%char)) as [->|Hdot]; simpl.
  { by rewrite IH1, IH2. }
  destruct (decide (c = "`"%char)) as [->|Htick]; simpl.
  { by rewrite IH1, IH2. }
  rewrite !decide_False by done.
  destruct (decide (c = "?"%char)) as [->|Hq]; simpl;
    rewrite ?decide_False by done; by rewrite IH1, IH2.
Qed.
Lemma renders_key key : renders (EscapeId key []) [] (lits (EscapeId key [])).
Proof.
  rewrite EscapeId_tail. destruct (renders_tail key) as [H1 H2].
  split; simpl; [|done]. by rewrite H1.
Qed.

Lemma renders_placeholders xs :
  renders (strings_Join (replicate (length xs) "?") ", ") xs (bound_list xs).
Proof.
  induction xs as [|x [|y xs] IH]; [done..|].
  change (strings_Join (replicate (length (x :: y :: xs)) "?") ", ")
    with ("?, " +:+ strings_Join (replicate (length (y :: xs)) "?") ", ").
  change (bound_list (x :: y :: xs))
    with ([Arg x; Lit ","; Lit " "] ++ bound_list (y :: xs)).
  by apply (renders_app "?, " [x]).
Qed.

Lemma renders_null key :
  renders (EscapeId key [] +:+ " IS NULL") []
    (lits (EscapeId key []) ++ lits " IS NULL").
Proof. by apply (renders_app _ [] _ " IS NULL" []); [apply renders_key|]. Qed.

Lemma renders_equal key v :
  renders (EscapeId key [] +:+ " = ?") [v]
    (lits (EscapeId key []) ++ lits " = " ++ [Arg v]).
Proof.
  by apply (renders_app _ [] _ " = ?" [v] (lits " = " ++ [Arg v]));
    [apply renders_key|].
Qed.

Lemma renders_in key xs :
  renders
    (EscapeId key [] +:+ "IN(" +:+
     strings_Join (replicate (length xs) "?") ", " +:+ ")") xs
    (lits (EscapeId key []) ++ lits "IN(" ++ bound_list xs ++ lits ")").
Proof.
  apply (renders_app _ [] _ _ xs); [apply renders_key|].
  apply (renders_app "IN(" [] (lits "IN(") _ xs); [done|].
  rewrite <- (app_nil_r xs) at 2.
  apply renders_app; [apply renders_placeholders | done].
Qed.

Lemma renders_condition entry :
  renders (condition_text entry) (condition_values json_Marshal entry)
    (bound_condition json_Marshal entry).
Proof.
  destruct entry as [key [| | | | |ss|vs|kvs]].
  - apply renders_null.
  - apply renders_equal.
  - apply renders_equal.
  - apply renders_equal.
  - apply renders_equal.
  - exact (renders_in key (VString <$> ss)).
  - exact (renders_in key vs).
  - apply renders_equal.
Qed.

Lemma renders_conditions entries :
  renders (strings_Join (condition_text <$> entries) " AND ")
    (entries ≫= condition_values json_Marshal)
    (bound_join (bound_condition json_Marshal <$> entries) (lits " AND ")).
Proof.
  induction entries as [|e [|e' es] IH]; [done| |].
  - rewrite bind_cons.
    change ([] ≫= condition_values json_Marshal) with (@nil value).
    rewrite app_nil_r. apply renders_condition.
  - rewrite bind_cons.
    change (strings_Join (condition_text <$> e :: e' :: es) " AND ")
      with (condition_text e +:+ " AND " +:+
            strings_Join (condition_text <$> e' :: es) " AND ").
    change (bound_join (bound_condition json_Marshal <$> e :: e' :: es)
              (lits " AND "))
      with (bound_condition json_Marshal e ++ lits " AND " ++
            bound_join (bound_condition json_Marshal <$> e' :: es)
              (lits " AND ")).
    apply renders_app; [apply renders_condition|].
    by apply (renders_app " AND " [] (lits " AND ")).
Qed.

Lemma prepare_where_text entries :
  prepare_where json_Marshal (Some entries) =
  {| query := " WHERE " +:+ strings_Join (condition_text <$> entries) " AND ";
     values := entries ≫= condition_values json_Marshal |}.
Proof. unfold prepare_where. by rewrite fold_where_step. Qed.

(** A [?] in a column name is part of the quoted name, not a placeholder. *)
Lemma placeholders_quoted_mark :
  query (prepare_where json_Marshal (Some [("a?", VInt 1)])) =
    " WHERE `a?` = ?" ∧
  placeholders " WHERE `a?` = ?" = 1%nat.
Proof. done. Qed.

(** C1. The text of the clause has as many placeholders as values are
    returned with it, and binding the values to the placeholders in their
    order gives every condition the values of its own entry: the elements
    of an IN list in their order, one value for an equality, none for
    IS NULL. *)
Theorem prepare_where_placeholders
    (where_ : option (list (string * value))) :
  let w := prepare_where json_Marshal where_ in
  placeholders (query w) = length (values w) ∧
  bind (query w) (values w) =
  Some (match where_ with
        | None => []
        | Some entries => bound_where json_Marshal entries
        end).
Proof.
  assert (∀ q vs b, bind q vs = Some b →
            placeholders q = length vs ∧ bind q vs = Some b) as Hcount.
  { intros q vs b H. split; [|done]. by apply bind_values_count in H. }
  destruct where_ as [entries|]; cbv zeta; [|done].
  rewrite prepare_where_text. cbn [query values]. apply Hcount.
  by apply (renders_app " WHERE " [] (lits " WHERE ")), renders_conditions.
Qed.

End Where_clause.

(** ** The statement assemblers *)

Section Statement_facts.
Variable json_Marshal : value → string.

(** C3. A nil condition map gives the empty clause; a map that is empty
    but not nil still gives the prefix, with no condition after it, and
    [Select] then executes a statement that is not SQL. *)
Theorem prepare_where_empty_map :
  prepare_where json_Marshal None = {| query := ""; values := [] |} ∧
  prepare_where json_Marshal (Some []) = {| query := " WHERE "; values := [] |} ∧
  Select_query json_Marshal "t" (Some []) [] = ("SELECT * FROM `t` WHERE ;", []).
Proof. done. Qed.

(** The conditions of a map that is not nil follow the prefix, joined
    with AND. *)
Lemma prepare_where_joined entries :
  query (prepare_where json_Marshal (Some entries)) =
  " WHERE " +:+ strings_Join (condition_text <$> entries) " AND ".
Proof. by rewrite prepare_where_text. Qed.

(** C7, as the code has it: the column is quoted and IN follows it
    without a space. *)
Theorem prepare_where_in_list :
  prepare_where json_Marshal (Some [("id", VSlice [VInt 1; VInt 2; VInt 3])]) =
  {| query := " WHERE `id`IN(?, ?, ?)"; values := [VInt 1; VInt 2; VInt 3] |}.
Proof. done. Qed.

(** [Select], [Insert] and [Update] escape the table. *)
Lemma table_escaped table data where_ args :
  HasPrefix (Select_query json_Marshal table where_ args).1
    ("SELECT " +:+ prepare_columns (first_arg args) +:+ " FROM " +:+
     EscapeId table []) = true ∧
  HasPrefix (Insert_query table data).1
    ("INSERT INTO " +:+ EscapeId table []) = true ∧
  HasPrefix (Update_query json_Marshal table data where_ args).1
    ("UPDATE " +:+ EscapeId table []) = true.
Proof.
  assert (∀ p s, HasPrefix (p +:+ s) p = true) as Hpre.
  { induction p as [|c p IH]; intros s; simpl; [by destruct s|].
    by rewrite bool_decide_eq_true_2, IH. }
  assert (∀ p s t, t = p +:+ s → HasPrefix t p = true) as Hpre'.
  { by intros p s t ->. }
  unfold Select_query, Insert_query, Update_query.
  destruct (fold_left insert_step data ([], [], [])) as [[vs cs] ps].
  destruct (prepare_set data) as [set vs0]. cbn [fst].
  split; [|split]; eapply Hpre'; rewrite !append_assoc; reflexivity.
Qed.

(** C5. [InsertRow] and [Delete] put the table into the statement as it
    is given; [Select], [Insert] and [Update] escape it. *)
Theorem table_not_escaped :
  InsertRow_query "order" [("x", VInt 1)] =
    ("INSERT INTO order SET `x` = ?;", [VInt 1]) ∧
  Delete_query json_Marshal "order" (Some [("x", VInt 1)]) [] =
    ("DELETE FROM order WHERE `x` = ?;", [VInt 1]) ∧
  Insert_query "order" [("x", VInt 1)] =
    ("INSERT INTO `order`(`x`) VALUES(?)", [VInt 1]) ∧
  Select_query json_Marshal "order" (Some [("x", VInt 1)]) [] =
    ("SELECT * FROM `order` WHERE `x` = ?;", [VInt 1]) ∧
  Update_query json_Marshal "order" [("y", VInt 2)] (Some [("x", VInt 1)]) [] =
    ("UPDATE `order` SET `y` = ? WHERE `x` = ?;", [VInt 2; VInt 1]).
Proof. done. Qed.

End Statement_facts.

(** C7, as the claim has it: no space stands before IN, and the column is
    not bare. *)
Lemma prepare_where_in_list_no_space :
  let w := prepare_where (λ _, "") (Some [("id", VSlice [VInt 1; VInt 2; VInt 3])]) in
  query w ≠ " WHERE id IN(?, ?, ?)" ∧
  strings_Contains (query w) "id IN(?, ?, ?)" = false ∧
  strings_Contains (query w) " IN(" = false.
Proof. vm_compute. repeat split; discriminate. Qed.

(** ** Failed executions *)

(** C6. After a driver error the [Error] holds the query and the driver's
    detail, and in [Values] one element: the slice of the bound values.
    Any other failure is the panic value as it is. *)
Theorem Exec_error_values (e : m_MySQLError) (query : string)
    (values : list value) :
  Exec (λ _ _, inr (DriverError e)) query values =
    Panic (PanicError {| Query := query; Values := [VSlice values];
                         MySQLError := e |}) ∧
  ExecQuery (λ _ _, inr (DriverError e)) query values =
    Panic (PanicError {| Query := query; Values := [VSlice values];
                         MySQLError := e |}) ∧
  Exec (λ _ _, inr (OtherError "bad connection")) query values =
    Panic (PanicErr (OtherError "bad connection")).
Proof. done. Qed.

(** The values of the [Error] at a statement with two parameters. *)
Lemma Exec_error_values_nested :
  Exec (λ _ _, inr (DriverError {| Number := 1062; SQLState := "23000";
                                    Message := "Duplicate entry" |}))
    "UPDATE `t` SET `a` = ? WHERE `b` = ?;" [VInt 1; VInt 2] =
  Panic (PanicError
           {| Query := "UPDATE `t` SET `a` = ? WHERE `b` = ?;";
              Values := [VSlice [VInt 1; VInt 2]];
              MySQLError := {| Number := 1062; SQLState := "23000";
                               Message := "Duplicate entry" |} |}) ∧
  [VSlice [VInt 1; VInt 2]] ≠ [VInt 1; VInt 2].
Proof. split; [done | discriminate]. Qed.

(** ** ORDER, LIMIT and the First variants *)

(** A limit that is no [int] is no limit for [limit_query], and an offset
    that is no [int] is the offset 0. *)
Lemma limit_query_not_int (options : option (gmap string value)) (b : bool) :
  as_int (index options "limit") = None → limit_query options b = "".
Proof. unfold limit_query. by intros ->. Qed.

Lemma limit_query_uint32 :
  limit_query (Some {["limit" := VUint32 5]}) true = "" ∧
  limit_query (Some {["limit" := VInt 5; "offset" := VString "10"]}) true =
    " LIMIT 0, 5".
Proof. done. Qed.

Lemma Delete_query_fragments json_Marshal table where_ args :
  (Delete_query json_Marshal table where_ args).1 =
  "DELETE FROM " +:+ table +:+ query (prepare_where json_Marshal where_) +:+
  order_query (first_arg args) +:+ limit_query (first_arg args) false +:+ ";".
Proof.
  unfold Delete_query, order_query, limit_query. cbn [fst].
  by destruct (as_int _).
Qed.

(** C9, as the claim has it: a limit that is present but is no [int], here
    the [uint32] that [ParseUint32] returns, gives no fragment at all. *)
Lemma limit_query_limit_not_int :
  let options : option (gmap string value) :=
    Some {["limit" := VUint32 5; "offset" := VInt 10]} in
  index options "limit" = Some (VUint32 5) ∧
  limit_query options true = "" ∧ limit_query options false = "" ∧
  (Select_query (λ _, "") "t" None [options]).1 = "SELECT * FROM `t`;" ∧
  (Delete_query (λ _, "") "t" None [options]).1 = "DELETE FROM t;".
Proof. vm_compute. done. Qed.

Lemma as_int_None (x : option value) :
  (∀ n : Z, x ≠ Some (VInt n)) → as_int x = None.
Proof. intros Hx. destruct x as [[]|]; try done. by destruct (Hx n). Qed.

(** C9, as the code has it.  With a limit that is an [int], [Select] gets
    the offset and the limit, the offset being 0 when there is none or when
    it is no [int], and [Update] and [Delete] get the limit alone; without
    a limit, and with a limit that is no [int], there is no fragment,
    whatever the offset. *)
Theorem limit_query_fragment (json_Marshal : value → string)
    (options : option (gmap string value)) :
  (∀ _limit : Z, index options "limit" = Some (VInt _limit) →
     (∀ offset : Z, index options "offset" = Some (VInt offset) →
        limit_query options true =
        " LIMIT " +:+ Sprintf_d offset +:+ ", " +:+ Sprintf_d _limit) ∧
     ((∀ offset : Z, index options "offset" ≠ Some (VInt offset)) →
        limit_query options true = " LIMIT 0, " +:+ Sprintf_d _limit) ∧
     limit_query options false = " LIMIT " +:+ Sprintf_d _limit) ∧
  ((∀ _limit : Z, index options "limit" ≠ Some (VInt _limit)) →
     limit_query options true = "" ∧ limit_query options false = "") ∧
  (∀ table data where_ args, first_arg args = options →
     (Select_query json_Marshal table where_ args).1 =
       "SELECT " +:+ prepare_columns options +:+ " FROM " +:+
       EscapeId table [] +:+ query (prepare_where json_Marshal where_) +:+
       order_query options +:+ limit_query options true +:+ ";" ∧
     (Update_query json_Marshal table data where_ args).1 =
       "UPDATE " +:+ EscapeId table [] +:+ " SET " +:+ (prepare_set data).1 +:+
       query (prepare_where json_Marshal where_) +:+
       order_query options +:+ limit_query options false +:+ ";" ∧
     (Delete_query json_Marshal table where_ args).1 =
       "DELETE FROM " +:+ table +:+ query (prepare_where json_Marshal where_) +:+
       order_query options +:+ limit_query options false +:+ ";").
Proof.
  split; [|split].
  - intros _limit Hlimit. unfold limit_query. rewrite Hlimit. cbn [as_int].
    split; [|split]; [| |done].
    + by intros offset ->.
    + intros Hoffset. by rewrite (as_int_None _ Hoffset).
  - intros Hlimit. unfold limit_query. by rewrite (as_int_None _ Hlimit).
  - intros table data where_ args <-. split; [done|]. split.
    + unfold Update_query. by destruct (prepare_set data).
    + apply Delete_query_fragments.
Qed.

(** [limit_query_fragment] at limit 5, with and without the offset 10. *)
Lemma limit_query_fragment_witness :
  limit_query (Some {["limit" := VInt 5; "offset" := VInt 10]}) true =
    " LIMIT 10, 5" ∧
  limit_query (Some {["limit" := VInt 5]}) true = " LIMIT 0, 5" ∧
  limit_query (Some {["limit" := VInt 5; "offset" := VString "10"]}) true =
    " LIMIT 0, 5" ∧
  limit_query (Some {["limit" := VInt 5]}) false = " LIMIT 5" ∧
  limit_query (Some {["offset" := VInt 10]}) true = "" ∧
  limit_query (Some {["limit" := VString "5"]}) false = "" ∧
  (Delete_query (λ _, "") "t" None [Some {["limit" := VInt 5]}]).1 =
    "DELETE FROM t LIMIT 5;".
Proof.
  split; [|split; [|split; [|split; [|split; [|split]]]]].
  - destruct (limit_query_fragment (λ _, "")
                (Some {["limit" := VInt 5; "offset" := VInt 10]})) as [H _].
    destruct (H 5 eq_refl) as [H10 _]. exact (H10 10 eq_refl).
  - destruct (limit_query_fragment (λ _, "")
                (Some {["limit" := VInt 5]})) as [H _].
    destruct (H 5 eq_refl) as (_ & H0 & _). apply H0. intros offset Heq.
    discriminate Heq.
  - destruct (limit_query_fragment (λ _, "")
                (Some {["limit" := VInt 5; "offset" := VString "10"]}))
      as [H _].
    destruct (H 5 eq_refl) as (_ & H0 & _). apply H0. intros offset Heq.
    discriminate Heq.
  - destruct (limit_query_fragment (λ _, "")
                (Some {["limit" := VInt 5]})) as [H _].
    destruct (H 5 eq_refl) as (_ & _ & H5). exact H5.
  - destruct (limit_query_fragment (λ _, "")
                (Some {["offset" := VInt 10]})) as (_ & H & _).
    apply H. intros _limit Heq. discriminate Heq.
  - destruct (limit_query_fragment (λ _, "")
                (Some {["limit" := VString "5"]})) as (_ & H & _).
    apply H. intros _limit Heq. discriminate Heq.
  - destruct (limit_query_fragment (λ _, "")
                (Some {["limit" := VInt 5]})) as (_ & _ & H).
    destruct (H "t" [] None [Some {["limit" := VInt 5]}] eq_refl) as (_ & _ & HD).
    exact HD.
Defined.

(** C2, as the code has it.  Called with no options map or with one map
    that is not nil, the First variants run the base operation on that map
    with its limit set to 1 (the map is made when there is none), and the
    statement executed ends in the LIMIT fragment for the limit 1. *)
Theorem First_variants_limit_one (json_Marshal : value → string)
    (db_Query : string → list value → sql_Rows + error)
    (db_Exec : string → list value → sql_Result + error)
    (table : string) (data : list (string * value))
    (where_ : option (list (string * value)))
    (options : list (option (gmap string value)))
    (Hoptions : options = [] ∨ ∃ m, options = [Some m]) :
  ∃ m : gmap string value,
    m = <["limit" := VInt 1]> (default ∅ (first_arg options)) ∧
    set_limit_option options = Ok [Some m] ∧
    limit_query (Some m) true =
      " LIMIT " +:+ Sprintf_d (default 0 (as_int (m !! "offset"))) +:+ ", 1" ∧
    limit_query (Some m) false = " LIMIT 1" ∧
    First json_Marshal db_Query table where_ options =
      (results ← Select json_Marshal db_Query table where_ [Some m];
       match results with
       | [row] => Ok (Some row)
       | _ => Ok None
       end) ∧
    UpdateFirst json_Marshal db_Exec table data where_ options =
      Update json_Marshal db_Exec table data where_ [Some m] ∧
    DeleteFirst json_Marshal db_Exec table where_ options =
      Delete json_Marshal db_Exec table where_ [Some m] ∧
    (Select_query json_Marshal table where_ [Some m]).1 =
      "SELECT " +:+ prepare_columns (Some m) +:+ " FROM " +:+
      EscapeId table [] +:+ query (prepare_where json_Marshal where_) +:+
      order_query (Some m) +:+
      (" LIMIT " +:+ Sprintf_d (default 0 (as_int (m !! "offset"))) +:+ ", 1")
      +:+ ";" ∧
    (Update_query json_Marshal table data where_ [Some m]).1 =
      "UPDATE " +:+ EscapeId table [] +:+ " SET " +:+ (prepare_set data).1 +:+
      query (prepare_where json_Marshal where_) +:+
      order_query (Some m) +:+ " LIMIT 1" +:+ ";" ∧
    (Delete_query json_Marshal table where_ [Some m]).1 =
      "DELETE FROM " +:+ table +:+ query (prepare_where json_Marshal where_) +:+
      order_query (Some m) +:+ " LIMIT 1" +:+ ";".
Proof.
  eexists. split; [reflexivity|].
  set (m := <["limit" := VInt 1]> (default ∅ (first_arg options))).
  assert (set_limit_option options = Ok [Some m]) as Hset.
  { destruct Hoptions as [->|[m0 ->]]; [|done].
    unfold m. cbn [first_arg default set_limit_option].
    by rewrite insert_empty. }
  assert (as_int (index (Some m) "limit") = Some 1) as Hlimit.
  { unfold index, m. cbn [mbind option_bind]. by rewrite lookup_insert_eq. }
  assert (limit_query (Some m) true =
          " LIMIT " +:+ Sprintf_d (default 0 (as_int (m !! "offset"))) +:+ ", 1")
    as Htrue.
  { unfold limit_query. rewrite Hlimit. unfold index. cbn [mbind option_bind].
    by destruct (as_int (m !! "offset")). }
  assert (limit_query (Some m) false = " LIMIT 1") as Hfalse.
  { unfold limit_query. by rewrite Hlimit. }
  split; [done|]. split; [done|]. split; [done|].
  split; [unfold First; by rewrite Hset|].
  split; [unfold UpdateFirst; by rewrite Hset|].
  split; [unfold DeleteFirst; by rewrite Hset|].
  split; [|split].
  - unfold Select_query. cbn [fst first_arg]. by rewrite Htrue.
  - unfold Update_query. destruct (prepare_set data).
    cbn [fst first_arg]. by rewrite Hfalse.
  - rewrite Delete_query_fragments. cbn [first_arg]. by rewrite Hfalse.
Qed.

(** [First_variants_limit_one] at one options map with the limit 100. *)
Lemma First_variants_limit_one_witness :
  ([Some ({["limit" := VInt 100]} : gmap string value)] = [] ∨
   ∃ m, [Some ({["limit" := VInt 100]} : gmap string value)] = [Some m]) ∧
  ∃ m : gmap string value,
    set_limit_option [Some {["limit" := VInt 100]}] = Ok [Some m] ∧
    limit_query (Some m) false = " LIMIT 1".
Proof.
  split; [right; eexists; reflexivity|].
  destruct (First_variants_limit_one (λ _, "")
              (λ _ _, inr (OtherError "")) (λ _ _, inr (OtherError ""))
              "t" [] None [Some {["limit" := VInt 100]}]
              (or_intror (ex_intro _ _ eq_refl)))
    as (m & _ & Hset & _ & Hfalse & _).
  exists m. split; [exact Hset | exact Hfalse].
Defined.

(** C2, as the claim has it: with two options maps the caller's limit
    stays, and the driver is handed a statement with LIMIT 100; with a nil
    options map nothing is executed. *)
Lemma First_variants_two_options :
  let options : list (option (gmap string value)) :=
    [Some {["limit" := VInt 100]}; Some ∅] in
  set_limit_option options = Ok options ∧
  Select_query (λ _, "") "t" None options =
    ("SELECT * FROM `t` LIMIT 0, 100;", []) ∧
  DeleteFirst (λ _, "") (λ query _, inr (OtherError query)) "t" None options =
    Panic (PanicErr (OtherError "DELETE FROM t LIMIT 100;")) ∧
  UpdateFirst (λ _, "") (λ query _, inr (OtherError query)) "t"
    [("a", VInt 1)] None options =
    Panic (PanicErr (OtherError "UPDATE `t` SET `a` = ? LIMIT 100;")) ∧
  First (λ _, "") (λ query _, inr (OtherError query)) "t" None options =
    Panic (PanicErr (OtherError "SELECT * FROM `t` LIMIT 0, 100;")) ∧
  First (λ _, "") (λ query _, inr (OtherError query)) "t" None [None] =
    Panic (PanicRuntime "assignment to entry in nil map").
Proof. vm_compute. done. Qed.

(** ** The scalar conversion helpers *)

Lemma digit_of_char (y : N) :
  (y < 10)%N → digit_of (pretty_N_char y) = Some (Z.of_N y).
Proof.
  intros Hlt.
  assert (y = 0 ∨ y = 1 ∨ y = 2 ∨ y = 3 ∨ y = 4 ∨ y = 5 ∨ y = 6 ∨ y = 7
          ∨ y = 8 ∨ y = 9)%N as Hy by lia.
  repeat (destruct Hy as [->|Hy]; [done|]). by subst.
Qed.

Lemma digit_of_mod (x : N) :
  digit_of (pretty_N_char (x `mod` 10)) = Some (Z.of_N (x `mod` 10)).
Proof. apply digit_of_char. by apply N.mod_lt. Qed.

(** Reading the decimal digits of [x] gives [x], or the range error when
    [x] leaves the [uint64]. *)
Lemma digits_value_pretty (x : N) : ∀ s : string,
  digits_value 0 (pretty_N_go x s) =
  if decide (Z.of_N x < 2 ^ 64) then digits_value (Z.of_N x) s
  else inr ErrRange.
Proof.
  induction (N.lt_wf_0 x) as [x _ IH]; intros s.
  destruct (decide (x = 0%N)) as [->|Hx].
  { by rewrite pretty_N_go_0. }
  rewrite pretty_N_go_step by lia.
  rewrite IH by (apply N.div_lt; lia).
  assert (Z.of_N x = Z.of_N (x `div` 10) * 10 + Z.of_N (x `mod` 10)) as Hdm.
  { rewrite (N.div_mod x 10) at 1 by done. lia. }
  pose proof (N.mod_lt x 10 ltac:(done)) as Hlt.
  destruct (decide (Z.of_N (x `div` 10) < 2 ^ 64)) as [Hq|Hq].
  - cbn [digits_value]. rewrite digit_of_mod. cbv zeta. by rewrite <- Hdm.
  - pose proof (N2Z.is_nonneg (x `div` 10)) as Hq0.
    pose proof (N2Z.is_nonneg (x `mod` 10)) as Hr0.
    rewrite decide_False; [done|]. rewrite Hdm.
    generalize dependent (Z.of_N (x `div` 10)).
    generalize dependent (Z.of_N (x `mod` 10)). intros. lia.
Qed.

Lemma pretty_N_go_length (x : N) : ∀ s : string,
  (String.length s ≤ String.length (pretty_N_go x s))%nat.
Proof.
  induction (N.lt_wf_0 x) as [x _ IH]; intros s.
  destruct (decide (x = 0%N)) as [->|Hx].
  { by rewrite pretty_N_go_0. }
  rewrite pretty_N_go_step by lia.
  etrans; [|apply IH, N.div_lt; lia]. simpl. lia.
Qed.

Lemma pretty_positive_digits (p : positive) :
  ∃ c rest, pretty (Npos p) = String c rest ∧
    c ≠ "-"%char ∧ c ≠ "+"%char ∧
    digits_value 0 (String c rest) =
    if decide (Z.pos p < 2 ^ 64) then inl (Z.pos p) else inr ErrRange.
Proof.
  unfold pretty, pretty_N. rewrite decide_False by done.
  pose proof (digits_value_pretty (Npos p) "") as Hd.
  pose proof (pretty_N_go_length (N.pos p `div` 10)
                (String (pretty_N_char (N.pos p `mod` 10)) "")) as Hlen.
  rewrite <- pretty_N_go_step in Hlen by lia.
  destruct (pretty_N_go (N.pos p) "") as [|c rest]; [simpl in Hlen; lia|].
  exists c, rest. split; [done|].
  assert (digit_of c ≠ None) as Hc.
  { intros Hnone. cbn [digits_value] in Hd. rewrite Hnone in Hd.
    change (Z.of_N (N.pos p)) with (Z.pos p) in Hd.
    destruct (decide (Z.pos p < 2 ^ 64)); [|done].
    discriminate. }
  split; [by intros ->|]. split; [by intros ->|]. exact Hd.
Qed.

Lemma Atoi_minus (c : ascii) (rest : string) :
  Atoi (String "-" (String c rest)) =
  match digits_value 0 (String c rest) with
  | inl un => if decide (- 2 ^ 63 ≤ - un < 2 ^ 63) then inl (- un)
              else inr ErrRange
  | inr err => inr err
  end.
Proof. reflexivity. Qed.

Lemma Atoi_unsigned (c : ascii) (rest : string) :
  c ≠ "-"%char → c ≠ "+"%char →
  Atoi (String c rest) =
  match digits_value 0 (String c rest) with
  | inl un => if decide (- 2 ^ 63 ≤ un < 2 ^ 63) then inl un else inr ErrRange
  | inr err => inr err
  end.
Proof.
  intros Hm Hp. unfold Atoi.
  rewrite decide_False by (intros [?|?]; done).
  by destruct (decide (c = "-"%char)).
Qed.

Lemma Atoi_decimal (n : Z) :
  Atoi (Sprintf_d n) =
  if decide (- 2 ^ 63 ≤ n < 2 ^ 63) then inl n else inr ErrRange.
Proof.
  unfold Sprintf_d. destruct n as [|p|p].
  - done.
  - change (pretty (Z.pos p)) with (pretty (N.pos p)).
    destruct (pretty_positive_digits p) as (c & rest & -> & Hm & Hp & Hd).
    rewrite Atoi_unsigned, Hd by done.
    destruct (decide (Z.pos p < 2 ^ 64)) as [H64|H64]; [done|].
    rewrite decide_False by lia. done.
  - change (pretty (Z.neg p)) with ("-" +:+ pretty (N.pos p)).
    destruct (pretty_positive_digits p) as (c & rest & -> & Hm & Hp & Hd).
    change ("-" +:+ String c rest) with (String "-" (String c rest)).
    rewrite Atoi_minus, Hd.
    destruct (decide (Z.pos p < 2 ^ 64)) as [H64|H64]; [done|].
    rewrite decide_False by lia. done.
Qed.

Lemma digits_value_bad (s : string) : ∀ (n : Z) (c : ascii),
  In c (list_ascii_of_string s) → digit_of c = None →
  ∃ err, digits_value n s = inr err.
Proof.
  induction s as [|ch s IH]; intros n c Hin Hc; [done|].
  cbn [digits_value]. destruct Hin as [->|Hin].
  - rewrite Hc. eauto.
  - destruct (digit_of ch) as [d|]; [|eauto]. cbv zeta.
    case_decide; eauto.
Qed.

Lemma Atoi_malformed (s0 : ascii) (rest : string) :
  (digit_of s0 = None ∧ s0 ≠ "-"%char ∧ s0 ≠ "+"%char) ∨
  (∃ c, In c (list_ascii_of_string rest) ∧ digit_of c = None) →
  ∃ err, Atoi (String s0 rest) = inr err.
Proof.
  intros Hbad. unfold Atoi.
  destruct (decide (s0 = "-"%char ∨ s0 = "+"%char)) as [Hsign|Hsign].
  - destruct Hbad as [(_ & Hm & Hp)|(c & Hin & Hc)]; [by destruct Hsign|].
    destruct (digits_value_bad rest 0 c Hin Hc) as [err ->].
    destruct rest; eauto.
  - assert (∃ err, digits_value 0 (String s0 rest) = inr err) as [err ->];
      [|eauto].
    destruct Hbad as [(Hc & _)|(c & Hin & Hc)].
    + apply (digits_value_bad _ 0 s0); [by left | done].
    + apply (digits_value_bad _ 0 c); [by right | done].
Qed.

(** On the decimal text of [n], [ParseUint32] returns [n] reduced modulo
    [2^32] when [n] fits the [int] of 64 bits, so [n] itself when it is a
    [uint32], and fails otherwise; what it returns is a [uint32]; it fails
    on the empty text, on a first byte that is neither a digit nor a sign,
    and on a later byte that is no digit. *)
Theorem ParseUint32_wraps :
  (∀ n : Z, ParseUint32 (VString (Sprintf_d n)) =
     if decide (- 2 ^ 63 ≤ n < 2 ^ 63) then Ok (n `mod` 2 ^ 32)
     else Panic (PanicErr ErrRange)) ∧
  (∀ n : Z, 0 ≤ n < 2 ^ 32 → ParseUint32 (VString (Sprintf_d n)) = Ok n) ∧
  (∀ (s : string) (r : Z), ParseUint32 (VString s) = Ok r → 0 ≤ r < 2 ^ 32) ∧
  (∀ (s0 : ascii) (rest : string),
     (digit_of s0 = None ∧ s0 ≠ "-"%char ∧ s0 ≠ "+"%char) ∨
     (∃ c, In c (list_ascii_of_string rest) ∧ digit_of c = None) →
     ∃ err, ParseUint32 (VString (String s0 rest)) = Panic (PanicErr err)) ∧
  ParseUint32 (VString "") = Panic (PanicErr ErrSyntax).
Proof.
  assert (∀ n : Z, ParseUint32 (VString (Sprintf_d n)) =
            if decide (- 2 ^ 63 ≤ n < 2 ^ 63) then Ok (n `mod` 2 ^ 32)
            else Panic (PanicErr ErrRange)) as Hdec.
  { intros n. unfold ParseUint32. rewrite Atoi_decimal. by case_decide. }
  split; [exact Hdec|]. split; [|split; [|split; [|done]]].
  - intros n Hn. rewrite Hdec, decide_True by lia.
    by rewrite Z.mod_small.
  - intros s r. unfold ParseUint32. destruct (Atoi s) as [i|err]; [|done].
    intros [= <-]. by apply Z.mod_pos_bound.
  - intros s0 rest Hbad. unfold ParseUint32.
    destruct (Atoi_malformed s0 rest Hbad) as [err ->]. eauto.
Qed.

(** [ParseUint32_wraps] at the largest [uint32] and at a malformed text. *)
Lemma ParseUint32_wraps_witness :
  (0 ≤ 4294967295 < 2 ^ 32 ∧
   ParseUint32 (VString (Sprintf_d 4294967295)) = Ok 4294967295) ∧
  (In "a"%char (list_ascii_of_string "2a") ∧ digit_of "a" = None ∧
   ∃ err, ParseUint32 (VString "12a") = Panic (PanicErr err)).
Proof.
  destruct ParseUint32_wraps as (_ & Hsmall & _ & Hbad & _).
  split.
  - split; [lia|]. apply Hsmall. lia.
  - split; [right; by left|]. split; [reflexivity|].
    apply (Hbad "1"%char "2a"). right. exists "a"%char.
    split; [right; by left | reflexivity].
Defined.

(** A negative number and a number above [2^32 - 1] are not refused. *)
Lemma ParseUint32_out_of_range :
  ParseUint32 (VString "-1") = Ok 4294967295 ∧
  ParseUint32 (VString "4294967296") = Ok 0.
Proof. vm_compute. done. Qed.

(** ** The rows of [Select] *)



Lemma row_result_fold_other (pairs : list (string * option string))
    (col : string) : ∀ m : gmap string value,
  col ∉ pairs.*1 →
  fold_left
    (λ (result : gmap string value) '(col, raw),
       <[col := VString (string_of_bytes raw)]> result) pairs m !! col =
  m !! col.
Proof.
  induction pairs as [|[c raw] pairs IH]; intros m Hnotin; [done|].
  rewrite fmap_cons in Hnotin. apply not_elem_of_cons in Hnotin as [Hne Hnotin].
  cbn [fold_left]. rewrite IH by done. by rewrite lookup_insert_ne.
Qed.









(** * Further properties *)

(** ** Plain text *)

Lemma renders_plain (s : string) : plain s = true → renders s [] (lits s).
Proof.
  unfold renders, lits. intros Hplain.
  assert (∀ b, bind_values (markers b s) [] = Some (Lit <$> list_ascii_of_string s)
               ∧ quoted_after b s = b) as H; [|by apply H].
  induction s as [|c s IH]; intros b; [done|].
  cbn [plain] in Hplain.
  apply andb_prop in Hplain as [Hc Hs]. apply andb_prop in Hc as [Ht Hq].
  apply bool_decide_eq_true_1 in Ht, Hq.
  destruct (IH Hs b) as [IH1 IH2].
  cbn [markers quoted_after]. rewrite !decide_False by done.
  cbn [bind_values]. rewrite IH1. done.
Qed.

Lemma plain_app (s t : string) : plain (s +:+ t) = plain s && plain t.
Proof.
  induction s as [|c s IH]; [done|]. cbn [String.append plain].
  rewrite IH. by rewrite !andb_assoc.
Qed.

Lemma plain_pretty_N_go (x : N) : ∀ s : string,
  plain (pretty_N_go x s) = plain s.
Proof.
  induction (N.lt_wf_0 x) as [x _ IH]; intros s.
  destruct (decide (x = 0%N)) as [->|Hx].
  { by rewrite pretty_N_go_0. }
  rewrite pretty_N_go_step by lia.
  rewrite IH by (apply N.div_lt; lia).
  cbn [plain]. unfold pretty_N_char. by repeat case_match.
Qed.

Lemma plain_Sprintf_d (n : Z) : plain (Sprintf_d n) = true.
Proof.
  assert (∀ x : N, plain (pretty x) = true) as HN.
  { intros x. unfold pretty, pretty_N. case_decide; [done|].
    by rewrite plain_pretty_N_go. }
  unfold Sprintf_d. destruct n as [|p|p]; [done| |].
  - apply (HN (N.pos p)).
  - change (pretty (Z.neg p)) with ("-" +:+ pretty (N.pos p)).
    rewrite plain_app, (HN (N.pos p)). done.
Qed.

(** ** The SET clause and INSERT *)

Lemma renders_lits_app q1 q2 v b :
  renders q1 [] (lits q1) → renders q2 v b →
  renders (q1 +:+ q2) v (lits q1 ++ b).
Proof. intros H1 H2. by apply (renders_app q1 [] (lits q1) q2 v b). Qed.

Lemma renders_app_lits q1 q2 v b :
  renders q1 v b → renders q2 [] (lits q2) →
  renders (q1 +:+ q2) v (b ++ lits q2).
Proof.
  intros H1 H2. rewrite <- (app_nil_r v).
  by apply (renders_app q1 v b q2 [] (lits q2)).
Qed.

Lemma renders_lits_lits q1 q2 :
  renders q1 [] (lits q1) → renders q2 [] (lits q2) →
  renders (q1 +:+ q2) [] (lits (q1 +:+ q2)).
Proof. intros H1 H2. rewrite lits_app. by apply renders_lits_app. Qed.

Lemma renders_joined {A : Type} (tx : A → string) (vl : A → list value)
    (bd : A → list bound) (sep : string) :
  renders sep [] (lits sep) → (∀ a, renders (tx a) (vl a) (bd a)) →
  ∀ l : list A,
    renders (strings_Join (tx <$> l) sep) (l ≫= vl)
      (bound_join (bd <$> l) (lits sep)).
Proof.
  intros Hsep Hone l. induction l as [|a [|a' l] IH]; [done| |].
  - rewrite bind_cons. change ([] ≫= vl) with (@nil value).
    rewrite app_nil_r. apply Hone.
  - rewrite bind_cons.
    change (strings_Join (tx <$> a :: a' :: l) sep)
      with (tx a +:+ sep +:+ strings_Join (tx <$> a' :: l) sep).
    change (bound_join (bd <$> a :: a' :: l) (lits sep))
      with (bd a ++ lits sep ++ bound_join (bd <$> a' :: l) (lits sep)).
    apply renders_app; [apply Hone|]. by apply renders_lits_app.
Qed.

Lemma renders_names (names : list string) :
  renders (strings_Join ((λ f, EscapeId f []) <$> names) ", ") []
    (lits (strings_Join ((λ f, EscapeId f []) <$> names) ", ")).
Proof.
  induction names as [|a [|a' names] IH]; [done| |].
  - apply renders_key.
  - change (strings_Join ((λ f, EscapeId f []) <$> a :: a' :: names) ", ")
      with (EscapeId a [] +:+ ", " +:+
            strings_Join ((λ f, EscapeId f []) <$> a' :: names) ", ").
    apply renders_lits_lits; [apply renders_key|].
    by apply renders_lits_lits.
Qed.

Lemma fold_set_step (entries : list (string * value)) :
  ∀ (vs : list value) (pre : list string),
  fold_left set_step entries
    (vs, pre ++ replicate (length entries) "", length pre) =
  (vs ++ (entries ≫= assignment_values), pre ++ (assignment_text <$> entries),
   (length pre + length entries)%nat).
Proof.
  induction entries as [|[key v] es IH]; intros vs pre.
  - cbn. rewrite !app_nil_r. by rewrite Nat.add_0_r.
  - cbn [fold_left length replicate]. rewrite fmap_cons, bind_cons.
    assert (∀ x : string,
              <[length pre := x]> (pre ++ "" :: replicate (length es) "") =
              (pre ++ [x]) ++ replicate (length es) "") as Hins.
    { intros x. rewrite insert_app_r_alt by done.
      rewrite Nat.sub_diag. cbn. by rewrite <- app_assoc. }
    assert (S (length pre) = length (pre ++ [assignment_text (key, v)])) as Hlen.
    { rewrite length_app. simpl. lia. }
    assert (set_step (vs, pre ++ "" :: replicate (length es) "", length pre)
              (key, v) =
            (vs ++ assignment_values (key, v),
             (pre ++ [assignment_text (key, v)]) ++ replicate (length es) "",
             length (pre ++ [assignment_text (key, v)]))) as ->.
    { rewrite <- Hlen. unfold set_step, assignment_text, assignment_values.
      cbn [fst snd]. destruct v; rewrite Hins, ?app_nil_r; done. }
    rewrite IH, <- !app_assoc, length_app. cbn [length app].
    by rewrite Nat.add_1_r, Nat.add_succ_r.
Qed.

Lemma prepare_set_text (data : list (string * value)) :
  prepare_set data =
  (strings_Join (assignment_text <$> data) ", ", data ≫= assignment_values).
Proof.
  unfold prepare_set.
  change (fold_left set_step data ([], replicate (length data) "", 0%nat))
    with (fold_left set_step data
            ([], [] ++ replicate (length data) "", length (@nil string))).
  by rewrite (fold_set_step data [] []).
Qed.

Lemma renders_assignment (entry : string * value) :
  renders (assignment_text entry) (assignment_values entry)
    (bound_assignment entry).
Proof.
  destruct entry as [key v].
  unfold assignment_text, assignment_values, bound_assignment. cbn [fst snd].
  destruct v; try apply renders_equal.
  by apply renders_lits_app; [apply renders_key|].
Qed.

Lemma renders_set (data : list (string * value)) :
  renders (prepare_set data).1 (prepare_set data).2 (bound_set data).
Proof.
  rewrite prepare_set_text. cbn [fst snd].
  apply renders_joined; [done | apply renders_assignment].
Qed.

Lemma renders_count q vs b :
  renders q vs b → placeholders q = length vs ∧ bind q vs = Some b.
Proof. intros [H _]. split; [by apply bind_values_count in H | done]. Qed.

(** X1. The SET clause has as many placeholders as values are returned
    with it, and binding them in order gives each column of the data map
    its own value as it was given; a nil value is written as NULL in the
    text and takes no placeholder. *)
Theorem prepare_set_binds (data : list (string * value)) :
  placeholders (prepare_set data).1 = length (prepare_set data).2 ∧
  bind (prepare_set data).1 (prepare_set data).2 = Some (bound_set data) ∧
  length (prepare_set data).2 =
    length (filter (λ e, Kind_of e.2 ≠ Invalid) data).
Proof.
  destruct (renders_count _ _ _ (renders_set data)) as [Hn Hb].
  split; [done|]. split; [done|].
  clear Hn Hb. rewrite prepare_set_text. cbn [snd].
  induction data as [|[key v] data IH]; [done|].
  rewrite bind_cons, length_app, IH, filter_cons. cbn [snd].
  destruct v; cbn [assignment_values snd Kind_of length]; case_decide;
    try done; by exfalso; auto.
Qed.

Lemma fold_insert_step (entries : list (string * value)) :
  ∀ (vs : list value) (cs ps : list string),
  fold_left insert_step entries (vs, cs, ps) =
  (vs ++ entries.*2, cs ++ ((λ k, EscapeId k []) <$> entries.*1),
   ps ++ replicate (length entries) "?").
Proof.
  induction entries as [|[k v] es IH]; intros vs cs ps.
  - cbn. by rewrite !app_nil_r.
  - cbn [fold_left insert_step]. rewrite IH, !fmap_cons, <- !app_assoc. done.
Qed.

Lemma Insert_query_text (table : string) (data : list (string * value)) :
  Insert_query table data =
  ("INSERT INTO " +:+ EscapeId table [] +:+ "(" +:+
   strings_Join ((λ k, EscapeId k []) <$> data.*1) ", " +:+ ") VALUES(" +:+
   strings_Join (replicate (length data) "?") ", " +:+ ")", data.*2).
Proof. unfold Insert_query. by rewrite fold_insert_step. Qed.

(** X2. [Insert] names every column of the data map, escaped, and binds
    every value, a nil one too, to a placeholder of its own, in the order
    of the columns: the statement has as many placeholders as the map has
    entries. *)
Theorem Insert_query_binds (table : string) (data : list (string * value)) :
  (Insert_query table data).2 = data.*2 ∧
  placeholders (Insert_query table data).1 = length data ∧
  bind (Insert_query table data).1 (Insert_query table data).2 =
  Some (lits ("INSERT INTO " +:+ EscapeId table [] +:+ "(" +:+
              strings_Join ((λ k, EscapeId k []) <$> data.*1) ", " +:+
              ") VALUES(") ++
        bound_list data.*2 ++ lits ")").
Proof.
  rewrite Insert_query_text. cbn [fst snd]. split; [done|].
  assert (renders
            (("INSERT INTO " +:+ EscapeId table [] +:+ "(" +:+
              strings_Join ((λ k, EscapeId k []) <$> data.*1) ", " +:+
              ") VALUES(") +:+
             strings_Join (replicate (length data) "?") ", " +:+ ")")
            data.*2
            (lits ("INSERT INTO " +:+ EscapeId table [] +:+ "(" +:+
                   strings_Join ((λ k, EscapeId k []) <$> data.*1) ", " +:+
                   ") VALUES(") ++
             bound_list data.*2 ++ lits ")")) as Hr.
  { apply renders_lits_app.
    - apply renders_lits_lits; [done|].
      apply renders_lits_lits; [apply renders_key|].
      apply renders_lits_lits; [done|].
      apply renders_lits_lits; [apply renders_names | done].
    - apply renders_app_lits; [|done].
      rewrite <- (length_fmap snd data). apply renders_placeholders. }
  rewrite !append_assoc in Hr. apply renders_count in Hr as [Hn Hb].
  rewrite length_fmap in Hn. done.
Qed.

(** ** Whole statements *)

Lemma plain_limit_query (options : option (gmap string value)) (b : bool) :
  plain (limit_query options b) = true.
Proof.
  unfold limit_query. destruct (as_int _) as [n|]; [|done].
  destruct b; rewrite !plain_app, !plain_Sprintf_d; done.
Qed.

Lemma renders_tail_fragments (options : option (gmap string value)) (b : bool) :
  plain (order_query options) = true →
  renders (order_query options +:+ limit_query options b +:+ ";") []
    (lits (order_query options +:+ limit_query options b +:+ ";")).
Proof.
  intros Horder. apply renders_plain.
  by rewrite !plain_app, Horder, plain_limit_query.
Qed.

Lemma renders_columns (options : option (gmap string value)) :
  renders (prepare_columns options) [] (lits (prepare_columns options)).
Proof.
  unfold prepare_columns. destruct (as_string _); [apply renders_key|].
  destruct (as_strings _); [apply renders_names | done].
Qed.

Lemma renders_where (json_Marshal : value → string)
    (where_ : option (list (string * value))) :
  renders (query (prepare_where json_Marshal where_))
    (values (prepare_where json_Marshal where_))
    (bound_clause json_Marshal where_).
Proof.
  destruct where_ as [entries|]; [|done].
  rewrite prepare_where_text. cbn [query values bound_clause].
  by apply renders_lits_app, renders_conditions.
Qed.

Lemma renders_statement P W T vs bw :
  renders P [] (lits P) → renders W vs bw → renders T [] (lits T) →
  renders (P +:+ W +:+ T) vs (lits P ++ bw ++ lits T).
Proof. intros HP HW HT. by apply renders_lits_app, renders_app_lits. Qed.

(** X3. When the ORDER BY fragment holds no question mark and no backtick,
    the statement of [Select] has as many placeholders as values are handed
    to the driver, and they are the placeholders of its WHERE clause, bound
    in order. *)
Theorem Select_query_binds (json_Marshal : value → string) (table : string)
    (where_ : option (list (string * value)))
    (args : list (option (gmap string value)))
    (Horder : plain (order_query (first_arg args)) = true) :
  placeholders (Select_query json_Marshal table where_ args).1 =
    length (Select_query json_Marshal table where_ args).2 ∧
  bind (Select_query json_Marshal table where_ args).1
       (Select_query json_Marshal table where_ args).2 =
  Some (lits ("SELECT " +:+ prepare_columns (first_arg args) +:+ " FROM " +:+
              EscapeId table []) ++
        bound_clause json_Marshal where_ ++
        lits (order_query (first_arg args) +:+
              limit_query (first_arg args) true +:+ ";")).
Proof.
  apply renders_count. unfold Select_query. cbn [fst snd].
  assert (renders ("SELECT " +:+ prepare_columns (first_arg args) +:+
                   " FROM " +:+ EscapeId table []) []
            (lits ("SELECT " +:+ prepare_columns (first_arg args) +:+
                   " FROM " +:+ EscapeId table []))) as HP.
  { apply renders_lits_lits; [done|].
    apply renders_lits_lits; [apply renders_columns|].
    apply renders_lits_lits; [done | apply renders_key]. }
  pose proof (renders_statement _ _ _ _ _ HP
                (renders_where json_Marshal where_)
                (renders_tail_fragments (first_arg args) true Horder)) as Hr.
  by rewrite !append_assoc in Hr.
Qed.

(** [Select_query_binds] at a statement with an order and an IN list. *)
Lemma Select_query_binds_witness :
  let args : list (option (gmap string value)) :=
    [Some {["order" := VString "created_at DESC"; "limit" := VInt 30]}] in
  plain (order_query (first_arg args)) = true ∧
  placeholders (Select_query (λ _, "") "products"
                  (Some [("user_id", VSlice [VInt 7; VInt 8])]) args).1 = 2%nat.
Proof.
  intros args. split; [reflexivity|].
  exact (proj1 (Select_query_binds (λ _, "") "products"
                  (Some [("user_id", VSlice [VInt 7; VInt 8])]) args eq_refl)).
Defined.

(** X4. When the ORDER BY fragment holds no question mark and no backtick,
    the statement of [Update] has as many placeholders as values are handed
    to the driver: first those of the SET clause with the values of the
    data map, then those of the WHERE clause with the values of the
    condition map. *)
Theorem Update_query_binds (json_Marshal : value → string) (table : string)
    (data : list (string * value)) (where_ : option (list (string * value)))
    (args : list (option (gmap string value)))
    (Horder : plain (order_query (first_arg args)) = true) :
  (Update_query json_Marshal table data where_ args).2 =
    (prepare_set data).2 ++ values (prepare_where json_Marshal where_) ∧
  placeholders (Update_query json_Marshal table data where_ args).1 =
    length (Update_query json_Marshal table data where_ args).2 ∧
  bind (Update_query json_Marshal table data where_ args).1
       (Update_query json_Marshal table data where_ args).2 =
  Some (lits ("UPDATE " +:+ EscapeId table [] +:+ " SET ") ++
        (bound_set data ++ bound_clause json_Marshal where_) ++
        lits (order_query (first_arg args) +:+
              limit_query (first_arg args) false +:+ ";")).
Proof.
  unfold Update_query. pose proof (renders_set data) as Hset.
  destruct (prepare_set data) as [set vs0]. cbn [fst snd] in *.
  split; [done|]. apply renders_count.
  assert (renders ("UPDATE " +:+ EscapeId table [] +:+ " SET ") []
            (lits ("UPDATE " +:+ EscapeId table [] +:+ " SET "))) as HP.
  { apply renders_lits_lits; [done|].
    apply renders_lits_lits; [apply renders_key | done]. }
  pose proof (renders_statement _ _ _ _ _ HP
                (renders_app _ _ _ _ _ _ Hset
                   (renders_where json_Marshal where_))
                (renders_tail_fragments (first_arg args) false Horder)) as Hr.
  by rewrite !append_assoc in Hr.
Qed.

(** [Update_query_binds] at one assignment and one condition. *)
Lemma Update_query_binds_witness :
  plain (order_query (first_arg [])) = true ∧
  bind (Update_query (λ _, "") "users" [("email", VString "a@b.c")]
          (Some [("id", VInt 3)]) []).1
       [VString "a@b.c"; VInt 3] =
  Some (lits "UPDATE `users` SET " ++
        (lits "`email` = " ++ [Arg (VString "a@b.c")]) ++
        (lits " WHERE `id` = " ++ [Arg (VInt 3)]) ++ lits ";").
Proof.
  split; [reflexivity|].
  destruct (Update_query_binds (λ _, "") "users" [("email", VString "a@b.c")]
              (Some [("id", VInt 3)]) [] eq_refl) as (_ & _ & Hbind).
  exact Hbind.
Defined.

Lemma inert_plain (s : string) : inert s = true → plain s = true.
Proof.
  induction s as [|c s IH]; [done|]. cbn [inert plain]. intros Hc.
  apply andb_prop in Hc as [Hc Hs]. rewrite (IH Hs).
  assert (c ≠ "`"%char ∧ c ≠ "?"%char) as [Ht Hq].
  { split; intros ->; discriminate Hc. }
  by rewrite !bool_decide_eq_true_2.
Qed.

(** X5. [Delete] puts the table into the statement as it is given: when
    the table and the ORDER BY fragment are made of letters, digits,
    underscores, dollars, dots, commas, parentheses and spaces only, the
    statement has as many placeholders as values are handed to the driver,
    those of its WHERE clause. *)
Theorem Delete_query_binds (json_Marshal : value → string) (table : string)
    (where_ : option (list (string * value)))
    (args : list (option (gmap string value)))
    (Htable : inert table = true)
    (Horder : inert (order_query (first_arg args)) = true) :
  placeholders (Delete_query json_Marshal table where_ args).1 =
    length (Delete_query json_Marshal table where_ args).2 ∧
  bind (Delete_query json_Marshal table where_ args).1
       (Delete_query json_Marshal table where_ args).2 =
  Some (lits ("DELETE FROM " +:+ table) ++
        bound_clause json_Marshal where_ ++
        lits (order_query (first_arg args) +:+
              limit_query (first_arg args) false +:+ ";")).
Proof.
  apply inert_plain in Htable, Horder.
  rewrite Delete_query_fragments.
  change (Delete_query json_Marshal table where_ args).2
    with (values (prepare_where json_Marshal where_)).
  apply renders_count.
  assert (renders ("DELETE FROM " +:+ table) []
            (lits ("DELETE FROM " +:+ table))) as HP.
  { apply renders_lits_lits; [done | by apply renders_plain]. }
  pose proof (renders_statement _ _ _ _ _ HP
                (renders_where json_Marshal where_)
                (renders_tail_fragments (first_arg args) false Horder)) as Hr.
  by rewrite !append_assoc in Hr.
Qed.

(** [Delete_query_binds] at one condition and a limit. *)
Lemma Delete_query_binds_witness :
  let args : list (option (gmap string value)) := [Some {["limit" := VInt 1]}] in
  inert "users" = true ∧ inert (order_query (first_arg args)) = true ∧
  placeholders (Delete_query (λ _, "") "users" (Some [("id", VInt 3)]) args).1 =
    1%nat.
Proof.
  intros args. split; [reflexivity|]. split; [reflexivity|].
  exact (proj1 (Delete_query_binds (λ _, "") "users" (Some [("id", VInt 3)])
                  args eq_refl eq_refl)).
Defined.

(** X6. [InsertRow] puts the table into the statement as it is given: when
    the table is made of letters, digits, underscores, dollars, dots,
    commas, parentheses and spaces only, the statement has as many
    placeholders as values are handed to the driver, those of its SET
    clause. *)
Theorem InsertRow_query_binds (table : string) (data : list (string * value))
    (Htable : inert table = true) :
  placeholders (InsertRow_query table data).1 =
    length (InsertRow_query table data).2 ∧
  bind (InsertRow_query table data).1 (InsertRow_query table data).2 =
  Some (lits ("INSERT INTO " +:+ table +:+ " SET ") ++ bound_set data ++
        lits ";").
Proof.
  apply inert_plain in Htable.
  unfold InsertRow_query. pose proof (renders_set data) as Hset.
  destruct (prepare_set data) as [set vs0]. cbn [fst snd] in *.
  apply renders_count.
  assert (renders ("INSERT INTO " +:+ table +:+ " SET ") []
            (lits ("INSERT INTO " +:+ table +:+ " SET "))) as HP.
  { apply renders_lits_lits; [done|].
    apply renders_lits_lits; [by apply renders_plain | done]. }
  pose proof (renders_statement _ _ ";" _ _ HP Hset ltac:(done)) as Hr.
  by rewrite !append_assoc in Hr.
Qed.

(** [InsertRow_query_binds] at a row with a NULL column. *)
Lemma InsertRow_query_binds_witness :
  inert "users" = true ∧
  bind (InsertRow_query "users" [("email", VString "a@b.c"); ("note", VNil)]).1
       [VString "a@b.c"] =
  Some (lits "INSERT INTO users SET " ++
        (lits "`email` = " ++ [Arg (VString "a@b.c")] ++ lits ", " ++
         lits "`note` = NULL") ++ lits ";").
Proof.
  split; [reflexivity|].
  exact (proj2 (InsertRow_query_binds "users"
                  [("email", VString "a@b.c"); ("note", VNil)] eq_refl)).
Defined.

Lemma count_markers_app (ms1 ms2 : list (option ascii)) :
  count_markers (ms1 ++ ms2) = (count_markers ms1 + count_markers ms2)%nat.
Proof.
  induction ms1 as [|[c|] ms1 IH]; [done| |]; cbn [app count_markers];
    rewrite IH; done.
Qed.

Lemma placeholders_after q1 v1 b1 q2 :
  renders q1 v1 b1 →
  placeholders (q1 +:+ q2) = (length v1 + placeholders q2)%nat.
Proof.
  intros [Hb Hq]. unfold placeholders.
  rewrite markers_app, count_markers_app, Hq.
  by rewrite (bind_values_count _ _ _ Hb).
Qed.

Lemma placeholders_order_mark (a b : string)
    (options : option (gmap string value)) (has_offset : bool) :
  plain a = true → plain b = true →
  placeholders (" ORDER BY " +:+ (a +:+ "?" +:+ b) +:+
                limit_query options has_offset +:+ ";") = 1%nat.
Proof.
  intros Ha Hb.
  assert (" ORDER BY " +:+ (a +:+ "?" +:+ b) +:+
          limit_query options has_offset +:+ ";" =
          (" ORDER BY " +:+ a) +:+
          String "?" (b +:+ limit_query options has_offset +:+ ";")) as ->.
  { by rewrite !append_assoc. }
  rewrite (placeholders_after _ [] (lits (" ORDER BY " +:+ a)));
    [|by apply renders_lits_lits; [|apply renders_plain]].
  unfold placeholders. cbn [markers count_markers length Nat.add].
  rewrite decide_False, decide_True by done. cbn [count_markers]. f_equal.
  assert (renders (b +:+ limit_query options has_offset +:+ ";") []
            (lits (b +:+ limit_query options has_offset +:+ ";"))) as Hr.
  { apply renders_plain. by rewrite !plain_app, Hb, plain_limit_query. }
  by apply renders_count in Hr as [Hn _].
Qed.

(** X7. The ORDER BY text is put into the statement as it is given and no
    value is bound for it: a question mark in it, between texts made of
    letters, digits, underscores, dollars, dots, commas, parentheses and
    spaces only, is one placeholder more than [Select] and [Update] hand
    values to the driver, so the values cannot be bound. *)
Theorem order_query_marker (json_Marshal : value → string) (table : string)
    (data : list (string * value)) (where_ : option (list (string * value)))
    (m : gmap string value) (a b : string)
    (Ha : inert a = true) (Hb : inert b = true)
    (Horder : m !! "order" = Some (VString (a +:+ "?" +:+ b))) :
  order_query (Some m) = " ORDER BY " +:+ a +:+ "?" +:+ b ∧
  placeholders (Select_query json_Marshal table where_ [Some m]).1 =
    S (length (Select_query json_Marshal table where_ [Some m]).2) ∧
  bind (Select_query json_Marshal table where_ [Some m]).1
       (Select_query json_Marshal table where_ [Some m]).2 = None ∧
  placeholders (Update_query json_Marshal table data where_ [Some m]).1 =
    S (length (Update_query json_Marshal table data where_ [Some m]).2) ∧
  bind (Update_query json_Marshal table data where_ [Some m]).1
       (Update_query json_Marshal table data where_ [Some m]).2 = None.
Proof.
  apply inert_plain in Ha, Hb.
  assert (order_query (Some m) = " ORDER BY " +:+ (a +:+ "?" +:+ b)) as Hoq.
  { unfold order_query, index. cbn [mbind option_bind]. by rewrite Horder. }
  assert (∀ q vs, placeholders q = S (length vs) → bind q vs = None) as Hnone.
  { intros q vs Hn. destruct (bind q vs) as [bd|] eqn:E; [|done].
    apply bind_values_count in E. unfold placeholders in Hn. lia. }
  split; [done|].
  assert (placeholders (Select_query json_Marshal table where_ [Some m]).1 =
          S (length (Select_query json_Marshal table where_ [Some m]).2)) as HS.
  { unfold Select_query. cbn [fst snd first_arg]. rewrite Hoq.
    assert (renders ("SELECT " +:+ prepare_columns (Some m) +:+ " FROM " +:+
                     EscapeId table [] +:+
                     query (prepare_where json_Marshal where_))
              (values (prepare_where json_Marshal where_))
              (lits ("SELECT " +:+ prepare_columns (Some m) +:+ " FROM " +:+
                     EscapeId table []) ++ bound_clause json_Marshal where_))
      as HP.
    { rewrite <- !append_assoc. apply renders_lits_app; [|apply renders_where].
      rewrite !append_assoc.
      apply renders_lits_lits; [done|].
      apply renders_lits_lits; [apply renders_columns|].
      apply renders_lits_lits; [done | apply renders_key]. }
    pose proof (placeholders_after _ _ _
                  (" ORDER BY " +:+ (a +:+ "?" +:+ b) +:+
                   limit_query (Some m) true +:+ ";") HP) as Hn.
    rewrite !append_assoc in Hn. rewrite !append_assoc, Hn.
    pose proof (placeholders_order_mark a b (Some m) true Ha Hb) as H1.
    rewrite !append_assoc in H1. rewrite H1. lia. }
  split; [done|]. split; [by apply Hnone|].
  assert (placeholders (Update_query json_Marshal table data where_ [Some m]).1 =
          S (length (Update_query json_Marshal table data where_ [Some m]).2))
    as HU.
  { unfold Update_query. pose proof (renders_set data) as Hset.
    destruct (prepare_set data) as [set vs0]. cbn [fst snd first_arg] in *.
    rewrite Hoq.
    assert (renders ("UPDATE " +:+ EscapeId table [] +:+ " SET " +:+ set +:+
                     query (prepare_where json_Marshal where_))
              (vs0 ++ values (prepare_where json_Marshal where_))
              (lits ("UPDATE " +:+ EscapeId table [] +:+ " SET ") ++
               bound_set data ++ bound_clause json_Marshal where_)) as HP.
    { rewrite <- !append_assoc. rewrite (append_assoc _ set).
      apply renders_lits_app;
        [|by apply renders_app; [|apply renders_where]].
      rewrite !append_assoc.
      apply renders_lits_lits; [done|].
      apply renders_lits_lits; [apply renders_key | done]. }
    pose proof (placeholders_after _ _ _
                  (" ORDER BY " +:+ (a +:+ "?" +:+ b) +:+
                   limit_query (Some m) false +:+ ";") HP) as Hn.
    rewrite !append_assoc in Hn. rewrite !append_assoc, Hn.
    pose proof (placeholders_order_mark a b (Some m) false Ha Hb) as H1.
    rewrite !append_assoc in H1. rewrite H1. lia. }
  split; [done | by apply Hnone].
Qed.

(** [order_query_marker] at an order that wants a parameter. *)
Lemma order_query_marker_witness :
  let m : gmap string value := {["order" := VString "FIELD(id, ?)"]} in
  inert "FIELD(id, " = true ∧ inert ")" = true ∧
  m !! "order" = Some (VString ("FIELD(id, " +:+ "?" +:+ ")")) ∧
  bind (Select_query (λ _, "") "t" (Some [("a", VInt 1)]) [Some m]).1
       (Select_query (λ _, "") "t" (Some [("a", VInt 1)]) [Some m]).2 = None.
Proof.
  intros m. split; [reflexivity|]. split; [reflexivity|].
  split; [reflexivity|].
  destruct (order_query_marker (λ _, "") "t" [] (Some [("a", VInt 1)]) m
              "FIELD(id, " ")" eq_refl eq_refl eq_refl)
    as (_ & _ & Hnone & _).
  exact Hnone.
Defined.

(** ** More on identifier escaping *)

Lemma Join_Split (s : string) (sep : ascii) :
  strings_Join (strings_Split s sep) (String sep "") = s.
Proof.
  induction s as [|c s IH]; [done|]. cbn [strings_Split].
  pose proof (Split_nonempty s sep) as Hne.
  destruct (decide (c = sep)) as [->|Hc].
  - destruct (strings_Split s sep) as [|p ps]; [done|].
    change (strings_Join ("" :: p :: ps) (String sep ""))
      with (String sep (strings_Join (p :: ps) (String sep ""))).
    by rewrite IH.
  - destruct (strings_Split s sep) as [|p [|p' ps]]; [done| |].
    + cbn in *. by rewrite IH.
    + change (strings_Join (String c p :: p' :: ps) (String sep ""))
        with (String c (strings_Join (p :: p' :: ps) (String sep ""))).
      by rewrite IH.
Qed.

Lemma read_ids_EscapeId (id : string) :
  read_ids Opening "" (EscapeId id []) = Some (strings_Split id ".") ∧
  read_ids Opening "" (EscapeId id [true]) = Some [id].
Proof.
  split.
  - rewrite EscapeId_tail. cbn [read_ids]. rewrite decide_True by done.
    rewrite read_ids_tail.
    pose proof (Split_nonempty id ".") as Hne.
    by destruct (strings_Split id ".").
  - unfold EscapeId, quote_part. cbn [String.append read_ids].
    rewrite decide_True by done. by rewrite read_ids_whole.
Qed.

(** X8. Escaping keeps identifiers apart: two different identifiers are
    escaped to two different texts, with the splitting at dots and
    without it. *)
Theorem EscapeId_injective (a b : string) (Hab : a ≠ b) :
  EscapeId a [] ≠ EscapeId b [] ∧ EscapeId a [true] ≠ EscapeId b [true].
Proof.
  destruct (read_ids_EscapeId a) as [Ha Ha'].
  destruct (read_ids_EscapeId b) as [Hb Hb'].
  split; intros Heq; apply Hab.
  - rewrite Heq, Hb in Ha. injection Ha as Hs.
    by rewrite <- (Join_Split a "."), <- (Join_Split b "."), Hs.
  - rewrite Heq, Hb' in Ha'. by injection Ha'.
Qed.

(** [EscapeId_injective] at two names that differ in a backtick. *)
Lemma EscapeId_injective_witness :
  "a`b" ≠ "a``b" ∧ EscapeId "a`b" [] ≠ EscapeId "a``b" [].
Proof.
  assert ("a`b" ≠ "a``b") as Hne by discriminate.
  split; [exact Hne|]. exact (proj1 (EscapeId_injective _ _ Hne)).
Defined.

Lemma Split_no_sep (s : string) (sep : ascii) :
  strings_Split s sep = [s] ↔ sep ∉ list_ascii_of_string s.
Proof.
  induction s as [|c s IH]; cbn [strings_Split list_ascii_of_string].
  - split; [intros _ Hin; by apply elem_of_nil in Hin | done].
  - pose proof (Split_nonempty s sep) as Hne.
    destruct (decide (c = sep)) as [->|Hc].
    + split.
      * intros Heq. destruct (strings_Split s sep); [done|discriminate].
      * intros Hnotin. exfalso. apply Hnotin. apply list_elem_of_here.
    + rewrite not_elem_of_cons, <- IH.
      destruct (strings_Split s sep) as [|p ps]; [done|]. split.
      * intros [= -> ->]. done.
      * intros [_ [= -> ->]]. done.
Qed.

(** X9. The flag [ignore_dot] changes the escaped text exactly for the
    identifiers that hold a dot; set to false it is the same as left
    out. *)
Theorem EscapeId_ignore_dot (id : string) :
  (EscapeId id [true] = EscapeId id [] ↔ "."%char ∉ list_ascii_of_string id) ∧
  EscapeId id [false] = EscapeId id [].
Proof.
  split; [|done]. destruct (read_ids_EscapeId id) as [Hsplit Hwhole]. split.
  - intros Heq. rewrite Heq, Hsplit in Hwhole. injection Hwhole as Hs.
    by apply Split_no_sep.
  - intros Hdot. apply Split_no_sep in Hdot. unfold EscapeId.
    by rewrite Hdot.
Qed.

(** [EscapeId_ignore_dot] at a qualified and at a simple name. *)
Lemma EscapeId_ignore_dot_witness :
  EscapeId "users" [true] = EscapeId "users" [] ∧
  EscapeId "db.users" [true] ≠ EscapeId "db.users" [].
Proof.
  split.
  - apply (proj1 (EscapeId_ignore_dot "users")). intros Hin.
    repeat (apply elem_of_cons in Hin as [Hin|Hin]; [discriminate|]).
    by apply elem_of_nil in Hin.
  - intros Heq. apply (proj1 (EscapeId_ignore_dot "db.users")) in Heq.
    apply Heq. do 2 apply list_elem_of_further. apply list_elem_of_here.
Defined.

(** ** The options *)

Lemma length_append (s t : string) :
  String.length (s +:+ t) = (String.length s + String.length t)%nat.
Proof. induction s as [|c s IH]; [done|]. cbn. by rewrite IH. Qed.

Lemma length_EscapeId (id : string) :
  (String.length id < String.length (EscapeId id []))%nat.
Proof.
  rewrite EscapeId_tail. pose proof (length_escaped_tail id). cbn. lia.
Qed.

Lemma length_Join_lt {A : Type} (f g : A → string) (sep : string)
    (l : list A) :
  (∀ x, String.length (f x) < String.length (g x))%nat → l ≠ [] →
  (String.length (strings_Join (f <$> l) sep) <
   String.length (strings_Join (g <$> l) sep))%nat.
Proof.
  intros Hfg Hl. induction l as [|a [|a' l] IH]; [done| |].
  - apply Hfg.
  - change (strings_Join (f <$> a :: a' :: l) sep)
      with (f a +:+ sep +:+ strings_Join (f <$> a' :: l) sep).
    change (strings_Join (g <$> a :: a' :: l) sep)
      with (g a +:+ sep +:+ strings_Join (g <$> a' :: l) sep).
    rewrite !length_append. specialize (IH ltac:(done)).
    specialize (Hfg a). lia.
Qed.

(** X10. [Select] escapes the names of the [columns] option in place, in
    the caller's slice: a second [Select] with the same options escapes
    them again, and its statement differs from the first one; the order
    and the limit stay. *)
Theorem prepare_columns_reuse (json_Marshal : value → string)
    (table : string) (where_ : option (list (string * value)))
    (m : gmap string value) (fields : list string)
    (Hcolumn : as_string (m !! "column") = None)
    (Hcolumns : m !! "columns" = Some (VStrings fields)) :
  prepare_columns (Some m) =
    strings_Join ((λ f, EscapeId f []) <$> fields) ", " ∧
  prepare_columns (prepare_columns_store (Some m)) =
    strings_Join ((λ f, EscapeId (EscapeId f []) []) <$> fields) ", " ∧
  order_query (prepare_columns_store (Some m)) = order_query (Some m) ∧
  (∀ b, limit_query (prepare_columns_store (Some m)) b =
        limit_query (Some m) b) ∧
  (fields ≠ [] →
   (Select_query json_Marshal table where_ [prepare_columns_store (Some m)]).1
   ≠ (Select_query json_Marshal table where_ [Some m]).1).
Proof.
  assert (prepare_columns_store (Some m) =
          Some (<["columns" := VStrings ((λ f, EscapeId f []) <$> fields)]> m))
    as Hstore.
  { unfold prepare_columns_store, index. cbn [mbind option_bind].
    by rewrite Hcolumn, Hcolumns. }
  assert (prepare_columns (Some m) =
          strings_Join ((λ f, EscapeId f []) <$> fields) ", ") as H1.
  { unfold prepare_columns, index. cbn [mbind option_bind].
    by rewrite Hcolumn, Hcolumns. }
  assert (prepare_columns (prepare_columns_store (Some m)) =
          strings_Join ((λ f, EscapeId (EscapeId f []) []) <$> fields) ", ")
    as H2.
  { rewrite Hstore. unfold prepare_columns, index. cbn [mbind option_bind].
    rewrite !lookup_insert_ne by done. rewrite Hcolumn, lookup_insert_eq.
    cbn [as_strings]. by rewrite <- list_fmap_compose. }
  assert (order_query (prepare_columns_store (Some m)) = order_query (Some m))
    as H3.
  { rewrite Hstore. unfold order_query, index. cbn [mbind option_bind].
    by rewrite lookup_insert_ne. }
  assert (∀ b, limit_query (prepare_columns_store (Some m)) b =
               limit_query (Some m) b) as H4.
  { intros b. rewrite Hstore. unfold limit_query, index.
    cbn [mbind option_bind]. by rewrite !lookup_insert_ne. }
  split; [done|]. split; [done|]. split; [done|]. split; [done|].
  intros Hfields Heq. unfold Select_query in Heq. cbn [fst first_arg] in Heq.
  rewrite H3, H4, H2, H1 in Heq.
  apply (f_equal String.length) in Heq. rewrite !length_append in Heq.
  pose proof (length_Join_lt (λ f, EscapeId f [])
                (λ f, EscapeId (EscapeId f []) []) ", " fields
                (λ x, length_EscapeId (EscapeId x [])) Hfields).
  lia.
Qed.

(** [prepare_columns_reuse] at one column. *)
Lemma prepare_columns_reuse_witness :
  let m : gmap string value := {["columns" := VStrings ["id"]]} in
  as_string (m !! "column") = None ∧
  m !! "columns" = Some (VStrings ["id"]) ∧
  prepare_columns (Some m) = "`id`" ∧
  prepare_columns (prepare_columns_store (Some m)) = "```id```".
Proof.
  intros m. split; [reflexivity|]. split; [reflexivity|].
  destruct (prepare_columns_reuse (λ _, "") "t" None m ["id"] eq_refl eq_refl)
    as (H1 & H2 & _).
  split; [exact H1 | exact H2].
Defined.

(** X11. The First variants change nothing but the limit in the caller's
    options map: the columns, the order and the offset of the statement
    are the caller's, and setting the limit again changes nothing. *)
Theorem set_limit_option_keeps (m : gmap string value) :
  ∃ m' : gmap string value,
    set_limit_option [Some m] = Ok [Some m'] ∧
    (∀ k : string, k ≠ "limit" → m' !! k = m !! k) ∧
    prepare_columns (Some m') = prepare_columns (Some m) ∧
    order_query (Some m') = order_query (Some m) ∧
    limit_query (Some m') true =
      " LIMIT " +:+
      Sprintf_d (default 0 (as_int (index (Some m) "offset"))) +:+ ", 1" ∧
    set_limit_option [Some m'] = Ok [Some m'].
Proof.
  exists (<["limit" := VInt 1]> m).
  split; [done|]. split; [by intros k Hk; rewrite lookup_insert_ne|].
  split; [|split; [|split]].
  - unfold prepare_columns, index. cbn [mbind option_bind].
    by rewrite !lookup_insert_ne.
  - unfold order_query, index. cbn [mbind option_bind].
    by rewrite lookup_insert_ne.
  - unfold limit_query, index. cbn [mbind option_bind].
    rewrite lookup_insert_eq, lookup_insert_ne by done. cbn [as_int].
    by destruct (as_int (m !! "offset")).
  - cbn [set_limit_option]. by rewrite insert_insert_eq.
Qed.

(** ** More on the rows of [Select] *)

Lemma Select_loop_map (columns : list string) (rows : list (list cell)) :
  ∀ acc : list (gmap string value),
  Forall (λ row : list cell, length row = length columns) rows →
  Select_loop columns rows acc =
  Ok (acc ++ ((λ row, row_result columns (scan_RawBytes <$> row)) <$> rows)).
Proof.
  induction rows as [|row rows IH]; intros acc Hrows.
  - cbn. by rewrite app_nil_r.
  - apply Forall_cons in Hrows as [Hrow Hrows]. cbn [Select_loop]. unfold Scan.
    rewrite decide_True by done. cbn [mbind result_bind].
    rewrite IH by done. by rewrite fmap_cons, <- app_assoc.
Qed.

(** X12. When the driver delivers rows of as many cells as there are
    columns, [Select] returns one mapping for each row, in the order of the
    rows; an error of [Columns] is the panic value. *)
Theorem Select_rows (json_Marshal : value → string)
    (db_Query : string → list value → sql_Rows + error)
    (table : string) (where_ : option (list (string * value)))
    (args : list (option (gmap string value))) (rows : sql_Rows)
    (Hquery : db_Query (Select_query json_Marshal table where_ args).1
                (Select_query json_Marshal table where_ args).2 = inl rows) :
  (∀ columns, Columns rows = inl columns →
     Forall (λ row : list cell, length row = length columns) (cells rows) →
     Select json_Marshal db_Query table where_ args =
     Ok ((λ row, row_result columns (scan_RawBytes <$> row)) <$> cells rows)) ∧
  (∀ err, Columns rows = inr err →
     Select json_Marshal db_Query table where_ args = Panic (PanicErr err)).
Proof.
  unfold Select, ExecQuery.
  destruct (Select_query json_Marshal table where_ args) as [q vs].
  cbn [fst snd] in Hquery. rewrite Hquery. cbn [mbind result_bind].
  split.
  - intros columns -> Hrows. cbn [mbind result_bind].
    by rewrite Select_loop_map.
  - by intros err ->.
Qed.

(** [Select_rows] at two rows. *)
Lemma Select_rows_witness :
  let rows : sql_Rows :=
    {| Columns := inl ["id"]; cells := [[Bytes "7"]; [Bytes "8"]] |} in
  Select (λ _, "") (λ _ _, inl rows) "t" None [] =
    Ok [row_result ["id"] [Some "7"]; row_result ["id"] [Some "8"]].
Proof.
  intros rows.
  apply (proj1 (Select_rows (λ _, "") (λ _ _, inl rows) "t" None [] rows
                  eq_refl) ["id"] eq_refl).
  repeat constructor.
Defined.

(** X13. [First] returns the row when the driver delivers exactly one row,
    and nil when it delivers none or more than one. *)
Theorem First_single_row (json_Marshal : value → string)
    (db_Query : string → list value → sql_Rows + error)
    (table : string) (where_ : option (list (string * value)))
    (options options' : list (option (gmap string value)))
    (rows : sql_Rows) (columns : list string)
    (Hoptions : set_limit_option options = Ok options')
    (Hquery : db_Query (Select_query json_Marshal table where_ options').1
                (Select_query json_Marshal table where_ options').2 = inl rows)
    (Hcolumns : Columns rows = inl columns)
    (Hrows : Forall (λ row : list cell, length row = length columns)
               (cells rows)) :
  First json_Marshal db_Query table where_ options =
  Ok (match cells rows with
      | [row] => Some (row_result columns (scan_RawBytes <$> row))
      | _ => None
      end).
Proof.
  unfold First. rewrite Hoptions. cbn [mbind result_bind].
  unfold Select, ExecQuery.
  destruct (Select_query json_Marshal table where_ options') as [q vs].
  cbn [fst snd] in Hquery. rewrite Hquery. cbn [mbind result_bind].
  rewrite Hcolumns. cbn [mbind result_bind].
  rewrite Select_loop_map by done. cbn [app mbind result_bind].
  by destruct (cells rows) as [|row [|row' rest]].
Qed.

(** [First_single_row] at a driver that delivers two rows. *)
Lemma First_single_row_witness :
  let rows : sql_Rows :=
    {| Columns := inl ["id"]; cells := [[Bytes "7"]; [Bytes "8"]] |} in
  First (λ _, "") (λ _ _, inl rows) "t" None [] = Ok None.
Proof.
  intros rows.
  apply (First_single_row (λ _, "") (λ _ _, inl rows) "t" None []
           [Some {["limit" := VInt 1]}] rows ["id"]
           eq_refl eq_refl eq_refl).
  repeat constructor.
Defined.

Lemma row_result_last (columns : list string) :
  ∀ (values : list (option string)) (m : gmap string value) (i : nat)
    (col : string) (raw : option string),
  columns !! i = Some col → values !! i = Some raw →
  (∀ j, (i < j)%nat → columns !! j ≠ Some col) →
  fold_left
    (λ (result : gmap string value) '(col, raw),
       <[col := VString (string_of_bytes raw)]> result)
    (zip columns values) m !! col = Some (VString (string_of_bytes raw)).
Proof.
  induction columns as [|c columns IH];
    intros values m i col raw Hcol Hraw Hlast.
  { by rewrite lookup_nil in Hcol. }
  destruct values as [|v values]; [by rewrite lookup_nil in Hraw|].
  cbn [zip zip_with fold_left]. destruct i as [|i]; simpl in Hcol, Hraw.
  - injection Hcol as ->. injection Hraw as ->.
    rewrite row_result_fold_other; [by rewrite lookup_insert_eq|].
    intros Hin. apply list_elem_of_fmap in Hin as [[c' r'] [-> Hin]].
    apply elem_of_zip_l, list_elem_of_lookup in Hin as [j Hj].
    by apply (Hlast (S j) ltac:(lia)).
  - apply (IH values _ i); [done..|].
    intros j Hij. apply (Hlast (S j)). lia.
Qed.

(** X14. A row mapping holds one value for a column name: when the result
    has several columns of one name, it is the value of the last of them;
    a name that is no column is not in the mapping. *)
Theorem row_result_last_wins (columns : list string)
    (values : list (option string)) (col : string) :
  (∀ i raw, columns !! i = Some col → values !! i = Some raw →
     (∀ j, (i < j)%nat → columns !! j ≠ Some col) →
     row_result columns values !! col = Some (VString (string_of_bytes raw))) ∧
  (col ∉ columns → row_result columns values !! col = None).
Proof.
  split.
  - intros i raw. apply row_result_last.
  - intros Hnotin. unfold row_result.
    rewrite row_result_fold_other; [done|].
    intros Hin. apply list_elem_of_fmap in Hin as [[c' r'] [-> Hin]].
    by apply elem_of_zip_l in Hin.
Qed.

(** [row_result_last_wins] at two columns of the name [id]. *)
Lemma row_result_last_wins_witness :
  row_result ["id"; "id"] [Some "1"; Some "2"] !! "id" = Some (VString "2") ∧
  row_result ["id"; "id"] [Some "1"; Some "2"] !! "name" = None.
Proof.
  destruct (row_result_last_wins ["id"; "id"] [Some "1"; Some "2"] "id")
    as [Hlast _].
  destruct (row_result_last_wins ["id"; "id"] [Some "1"; Some "2"] "name")
    as [_ Hnone].
  split.
  - apply (Hlast 1%nat (Some "2") eq_refl eq_refl).
    intros [|[|j]] Hj; [lia | lia | done].
  - apply Hnone. intros Hin.
    repeat (apply elem_of_cons in Hin as [Hin|Hin]; [discriminate|]).
    by apply elem_of_nil in Hin.
Defined.

(** ** More on [ParseUint32] *)

Lemma digits_value_zeros (k : nat) (s : string) :
  digits_value 0 (zeros k +:+ s) = digits_value 0 s.
Proof. induction k as [|k IH]; [done|]. cbn. exact IH. Qed.

Lemma Sprintf_d_digits (n : Z) :
  0 ≤ n < 2 ^ 63 →
  ∃ c rest, Sprintf_d n = String c rest ∧ c ≠ "-"%char ∧ c ≠ "+"%char ∧
    digits_value 0 (String c rest) = inl n.
Proof.
  intros Hn. unfold Sprintf_d. destruct n as [|p|p]; [|..|lia].
  - by exists "0"%char, "".
  - change (pretty (Z.pos p)) with (pretty (N.pos p)).
    destruct (pretty_positive_digits p) as (c & rest & -> & Hm & Hp & Hd).
    exists c, rest. rewrite decide_True in Hd by lia. done.
Qed.

Lemma Atoi_zeros (k : nat) (n : Z) :
  0 ≤ n < 2 ^ 63 →
  Atoi (zeros k +:+ Sprintf_d n) = inl n ∧
  Atoi ("+" +:+ zeros k +:+ Sprintf_d n) = inl n ∧
  Atoi ("-" +:+ zeros k +:+ Sprintf_d n) = inl (- n).
Proof.
  intros Hn. destruct (Sprintf_d_digits n Hn) as (c & rest & Hs & Hm & Hp & Hd).
  assert (∃ c' rest', zeros k +:+ Sprintf_d n = String c' rest' ∧
            c' ≠ "-"%char ∧ c' ≠ "+"%char) as (c' & rest' & Hz & Hm' & Hp').
  { destruct k as [|k]; [by exists c, rest|].
    by exists "0"%char, (zeros k +:+ Sprintf_d n). }
  assert (digits_value 0 (String c' rest') = inl n) as Hd'.
  { by rewrite <- Hz, digits_value_zeros, Hs. }
  split; [|split].
  - rewrite Hz, Atoi_unsigned, Hd' by done. by rewrite decide_True by lia.
  - change ("+" +:+ zeros k +:+ Sprintf_d n)
      with (String "+" (zeros k +:+ Sprintf_d n)).
    rewrite Hz. unfold Atoi. rewrite decide_True by (by right).
    rewrite Hd'. rewrite (decide_False (P := "+"%char = "-"%char)) by done.
    change (intSize - 1) with 63. by rewrite decide_True by lia.
  - change ("-" +:+ zeros k +:+ Sprintf_d n)
      with (String "-" (zeros k +:+ Sprintf_d n)).
    rewrite Hz, Atoi_minus, Hd'. by rewrite decide_True by lia.
Qed.

(** X15. [ParseUint32] reads a decimal number with zeros before it and with
    a sign: the zeros and a plus sign change nothing, and with a minus sign
    the result is the negated number reduced modulo [2^32]. *)
Theorem ParseUint32_sign_zeros (k : nat) (n : Z) (Hn : 0 ≤ n < 2 ^ 63) :
  ParseUint32 (VString (zeros k +:+ Sprintf_d n)) = Ok (n `mod` 2 ^ 32) ∧
  ParseUint32 (VString ("+" +:+ zeros k +:+ Sprintf_d n)) =
    Ok (n `mod` 2 ^ 32) ∧
  ParseUint32 (VString ("-" +:+ zeros k +:+ Sprintf_d n)) =
    Ok ((- n) `mod` 2 ^ 32).
Proof.
  destruct (Atoi_zeros k n Hn) as (H1 & H2 & H3).
  unfold ParseUint32. by rewrite H1, H2, H3.
Qed.

(** [ParseUint32_sign_zeros] at 42 with two zeros. *)
Lemma ParseUint32_sign_zeros_witness :
  0 ≤ 42 < 2 ^ 63 ∧
  ParseUint32 (VString "0042") = Ok 42 ∧
  ParseUint32 (VString "+0042") = Ok 42 ∧
  ParseUint32 (VString "-0042") = Ok 4294967254.
Proof.
  assert (0 ≤ 42 < 2 ^ 63) as Hn by lia.
  split; [exact Hn|]. exact (ParseUint32_sign_zeros 2 42 Hn).
Defined.

(** ** The connection *)

(** X16. With a socket set, [Init] connects to the socket and the host and
    the port play no part; without one it connects to the host and the
    port.  The user, the password and the database name are put into the
    connect string as they are: a colon may pass from the user to the
    password without changing the string, and [Init] does the same for
    both. *)
Theorem Init_connect_string (DB : Type)
    (sql_Open : string → string → DB + error) (db_Ping : DB → option error)
    (cfg : Config) :
  (Socket cfg ≠ "" →
     connect_string cfg =
       Username cfg +:+ ":" +:+ Password cfg +:+ "@unix(" +:+ Socket cfg +:+
       ")/" +:+ DBName cfg +:+ "?charset=utf8" ∧
     ∀ host port,
       Init DB sql_Open db_Ping
         {| Host := host; Port := port; Socket := Socket cfg;
            DBName := DBName cfg; Username := Username cfg;
            Password := Password cfg |} =
       Init DB sql_Open db_Ping cfg) ∧
  (Socket cfg = "" →
     connect_string cfg =
       Username cfg +:+ ":" +:+ Password cfg +:+ "@tcp(" +:+ Host cfg +:+ ":"
       +:+ Sprintf_d (Port cfg) +:+ ")/" +:+ DBName cfg +:+ "?charset=utf8") ∧
  (∀ u p q : string,
     Init DB sql_Open db_Ping
       {| Host := Host cfg; Port := Port cfg; Socket := Socket cfg;
          DBName := DBName cfg; Username := u +:+ ":" +:+ p; Password := q |} =
     Init DB sql_Open db_Ping
       {| Host := Host cfg; Port := Port cfg; Socket := Socket cfg;
          DBName := DBName cfg; Username := u; Password := p +:+ ":" +:+ q |}).
Proof.
  split; [|split].
  - intros Hsocket. split.
    + unfold connect_string. rewrite decide_True by done.
      by rewrite !append_assoc.
    + intros host port. unfold Init, connect_string. cbn [Socket Host Port
        DBName Username Password]. by rewrite !decide_True by done.
  - intros Hsocket. unfold connect_string.
    rewrite decide_False by (by intros H; apply H).
    by rewrite !append_assoc.
  - intros u p q. unfold Init, connect_string.
    cbn [Socket Host Port DBName Username Password].
    by rewrite !append_assoc.
Qed.

(** [Init_connect_string] at the default configuration and at a socket. *)
Lemma Init_connect_string_witness :
  connect_string
    {| Host := Host NewConfig; Port := Port NewConfig; Socket := "";
       DBName := "shop"; Username := "jeefo"; Password := "123" |} =
    "jeefo:123@tcp(127.0.0.1:3306)/shop?charset=utf8" ∧
  connect_string
    {| Host := Host NewConfig; Port := Port NewConfig;
       Socket := "/var/lib/mysql/mysql.sock";
       DBName := "shop"; Username := "jeefo"; Password := "123" |} =
    "jeefo:123@unix(/var/lib/mysql/mysql.sock)/shop?charset=utf8".
Proof.
  split.
  - exact (proj1 (proj2 (Init_connect_string unit (λ _ _, inl tt) (λ _, None)
                           {| Host := Host NewConfig; Port := Port NewConfig;
                              Socket := ""; DBName := "shop";
                              Username := "jeefo"; Password := "123" |}))
             eq_refl).
  - refine (proj1 (proj1 (Init_connect_string unit (λ _ _, inl tt) (λ _, None)
                            {| Host := Host NewConfig; Port := Port NewConfig;
                               Socket := "/var/lib/mysql/mysql.sock";
                               DBName := "shop"; Username := "jeefo";
                               Password := "123" |}) _)).
    discriminate.
Defined.

(** ** What [ParseUint32] does with every text *)

Lemma digit_of_range (ch : ascii) (d : Z) : digit_of ch = Some d → 0 ≤ d ≤ 9.
Proof. unfold digit_of. case_decide; [|done]. by intros [= <-]. Qed.

Lemma horner_mono (s : string) : ∀ n v : Z,
  0 ≤ n → horner n s = Some v → n ≤ v.
Proof.
  induction s as [|ch s IH]; intros n v Hn; cbn [horner].
  - intros [= <-]. lia.
  - destruct (digit_of ch) as [d|] eqn:Hd; [|done]. cbn [mbind option_bind].
    apply digit_of_range in Hd. intros Hv. apply IH in Hv; lia.
Qed.

(** The digit loop gives the value of the digits, or the range error when
    the value leaves the [uint64]; it fails on a byte that is no digit. *)
Lemma digits_value_horner (s : string) : ∀ n : Z,
  0 ≤ n < 2 ^ 64 →
  match horner n s with
  | None => ∃ err, digits_value n s = inr err
  | Some v =>
      digits_value n s = if decide (v < 2 ^ 64) then inl v else inr ErrRange
  end.
Proof.
  induction s as [|ch s IH]; intros n Hn; cbn [horner digits_value].
  - by rewrite decide_True by lia.
  - destruct (digit_of ch) as [d|] eqn:Hd; cbn [mbind option_bind]; [|eauto].
    apply digit_of_range in Hd. cbv zeta.
    destruct (decide (n * 10 + d < 2 ^ 64)) as [Hlt|Hge].
    + apply IH. lia.
    + destruct (horner (n * 10 + d) s) as [v|] eqn:Hv; [|eauto].
      apply horner_mono in Hv; [|lia]. by rewrite decide_False by lia.
Qed.

Lemma horner_nonneg (s : string) (v : Z) : horner 0 s = Some v → 0 ≤ v.
Proof. by apply horner_mono. Qed.

Lemma Atoi_denotes (s : string) :
  match denotes s with
  | None => ∃ err, Atoi s = inr err
  | Some n =>
      Atoi s = if decide (- 2 ^ 63 ≤ n < 2 ^ 63) then inl n else inr ErrRange
  end.
Proof.
  destruct s as [|c rest]; [cbn; eauto|]. unfold denotes, Atoi.
  change (intSize - 1) with 63.
  destruct (decide (c = "-"%char)) as [->|Hm].
  - rewrite (decide_True (P := "-"%char = "-"%char ∨ "-"%char = "+"%char))
      by (by left).
    destruct rest as [|c' rest']; [eauto|].
    pose proof (digits_value_horner (String c' rest') 0 ltac:(lia)) as Hd.
    destruct (horner 0 (String c' rest')) as [v|] eqn:Hv.
    + cbn [fmap option_fmap option_map]. rewrite Hd.
      apply horner_nonneg in Hv.
      destruct (decide (v < 2 ^ 64)); [done|].
      by rewrite decide_False by lia.
    + destruct Hd as [err ->]. cbn. eauto.
  - destruct (decide (c = "+"%char)) as [->|Hp].
    + rewrite (decide_True (P := "+"%char = "-"%char ∨ "+"%char = "+"%char))
        by (by right).
      destruct rest as [|c' rest']; [eauto|].
      pose proof (digits_value_horner (String c' rest') 0 ltac:(lia)) as Hd.
      destruct (horner 0 (String c' rest')) as [v|] eqn:Hv.
      * rewrite Hd. destruct (decide (v < 2 ^ 64)); [done|].
        by rewrite decide_False by lia.
      * destruct Hd as [err ->]. eauto.
    + rewrite (decide_False (P := c = "-"%char ∨ c = "+"%char))
        by (intros [?|?]; done).
      pose proof (digits_value_horner (String c rest) 0 ltac:(lia)) as Hd.
      destruct (horner 0 (String c rest)) as [v|] eqn:Hv.
      * rewrite Hd. destruct (decide (v < 2 ^ 64)); [done|].
        by rewrite decide_False by lia.
      * destruct Hd as [err ->]. eauto.
Qed.

Lemma horner_pretty (x : N) : ∀ s : string,
  horner 0 (pretty_N_go x s) = horner (Z.of_N x) s.
Proof.
  induction (N.lt_wf_0 x) as [x _ IH]; intros s.
  destruct (decide (x = 0%N)) as [->|Hx].
  { by rewrite pretty_N_go_0. }
  rewrite pretty_N_go_step by lia.
  rewrite IH by (apply N.div_lt; lia).
  cbn [horner]. rewrite digit_of_mod. cbn [mbind option_bind].
  f_equal. rewrite (N.div_mod x 10) at 3 by done. lia.
Qed.

Lemma denotes_Sprintf_d (n : Z) : denotes (Sprintf_d n) = Some n.
Proof.
  unfold Sprintf_d. destruct n as [|p|p]; [done| |].
  - change (pretty (Z.pos p)) with (pretty (N.pos p)).
    destruct (pretty_positive_digits p) as (c & rest & Hs & Hm & Hp & _).
    assert (horner 0 (pretty (N.pos p)) = Some (Z.pos p)) as Hh.
    { unfold pretty, pretty_N. rewrite decide_False by done.
      by rewrite horner_pretty. }
    rewrite Hs in *. unfold denotes. by rewrite !decide_False by done.
  - change (pretty (Z.neg p)) with (String "-" (pretty (N.pos p))).
    destruct (pretty_positive_digits p) as (c & rest & Hs & _).
    assert (horner 0 (pretty (N.pos p)) = Some (Z.pos p)) as Hh.
    { unfold pretty, pretty_N. rewrite decide_False by done.
      by rewrite horner_pretty. }
    unfold denotes. rewrite decide_True by done.
    rewrite Hs in *. by rewrite Hh.
Qed.

(** C8. The decimal text of [n] denotes [n].  On a text that denotes no
    integer [ParseUint32] fails fatally.  On a text that denotes [n] it
    fails fatally only when [n] does not fit the [int] of 64 bits;
    otherwise it returns [n] reduced modulo [2^32], which for a negative
    [n] and for [n] above [2^32 - 1] is another number and no failure: the
    texts [-1] and [4294967296] give 4294967295 and 0. *)
Theorem ParseUint32_denotes :
  (∀ n : Z, denotes (Sprintf_d n) = Some n) ∧
  (∀ s : string,
     match denotes s with
     | None => ∃ err, ParseUint32 (VString s) = Panic (PanicErr err)
     | Some n =>
         ParseUint32 (VString s) =
         if decide (- 2 ^ 63 ≤ n < 2 ^ 63) then Ok (n `mod` 2 ^ 32)
         else Panic (PanicErr ErrRange)
     end) ∧
  denotes "-1" = Some (-1) ∧ ParseUint32 (VString "-1") = Ok 4294967295 ∧
  denotes "4294967296" = Some 4294967296 ∧
  ParseUint32 (VString "4294967296") = Ok 0.
Proof.
  split; [exact denotes_Sprintf_d|]. split; [|done].
  intros s. pose proof (Atoi_denotes s) as Ha. unfold ParseUint32.
  destruct (denotes s) as [n|].
  - rewrite Ha. by case_decide.
  - destruct Ha as [err ->]. eauto.
Qed.
